(** * TrollBot: the four batch analyzers of [setup.py]

    A shallow embedding of [detect_abnormal_posting],
    [detect_repeated_phrases], [sentiment_analysis] and [analyze_network],
    and the properties their specification states about them.

    Conventions of the embedding.
    - Python objects reaching the analyzers are values of type [value];
      a dictionary is the list of its items in insertion order.
    - A call that can raise returns a [result]; the statement-level code of
      [detect_abnormal_posting], which mutates [suspicious_accounts] and
      catches exceptions, runs in the state-and-exception monad [M].
    - The third-party and library calls ([parser.parse], [statistics.stdev],
      [TextBlob(..).sentiment.polarity], the [nx] graph API) are section
      variables: functions that return a [result].  A global name that is
      not bound is the collaborator that raises [NameError] on every call.
    - A Python float is the rational number it denotes ([Q]).  In
      [detect_abnormal_posting], where comparisons of computed numbers with
      the thresholds decide the output, every arithmetic operation rounds
      its exact result to the nearest double ([double]); infinities and NaN
      are out of the model, and so are overflows.  In [sentiment_analysis]
      the mean is the exact one.
    - A [datetime] is a microsecond count together with the flag that tells
      an aware datetime from a naive one; ordering a naive and an aware
      datetime raises [TypeError].
    - A [str] is a sequence of characters of an alphabet closed under
      [str.lower]: Latin-1 and the four capital letters beyond it whose
      lowercase is a Latin-1 letter.  The cleaning rule of
      [detect_repeated_phrases] is a character class, given by the
      characters it matches. *)

From Stdlib Require Import List Ascii Bool ZArith QArith Lia.
From Stdlib.Strings Require Import Byte.
From Stdlib Require Import Qround Qpower.
From Stdlib Require Import Permutation Sorted Mergesort Orders Lqa.
Import ListNotations.

Set Warnings "-register-all".
Close Scope Q_scope.
Local Open Scope list_scope.

(** ** Strings

    The characters of the embedding are the code points whose lowercase is
    one Latin-1 character: U+0000 to U+00FF, and the four capital letters
    beyond them that [str.lower] sends into that range.  A string literal
    of this file stands for the [str] of its ASCII characters. *)

Inductive char : Type :=
| Latin1 (c : ascii)
| U0178
| U1E9E
| U212A
| U212B.

Inductive str : Type :=
| EmptyStr
| Str (c : char) (s : str).

Declare Scope str_scope.
Delimit Scope str_scope with str.
Bind Scope str_scope with str.

Fixpoint str_of_bytes (l : list Byte.byte) : option str :=
  match l with
  | [] => Some EmptyStr
  | b :: l' =>
      if (Byte.to_N b <? 128)%N
      then option_map (Str (Latin1 (ascii_of_byte b))) (str_of_bytes l')
      else None
  end.

Fixpoint bytes_of_str (s : str) : option (list Byte.byte) :=
  match s with
  | EmptyStr => Some []
  | Str (Latin1 c) s' =>
      if (N_of_ascii c <? 128)%N
      then option_map (cons (byte_of_ascii c)) (bytes_of_str s')
      else None
  | Str _ _ => None
  end.

String Notation str str_of_bytes bytes_of_str : str_scope.

(** The code point of a character: U+0178 is the capital Y with diaeresis,
    U+1E9E the capital sharp S, U+212A the Kelvin sign and U+212B the
    Angstrom sign. *)
Definition code (c : char) : N :=
  match c with
  | Latin1 a => N_of_ascii a
  | U0178 => 376
  | U1E9E => 7838
  | U212A => 8490
  | U212B => 8491
  end.

(** [a == b] on characters and on strings. *)
Definition char_eqb (a b : char) : bool := (code a =? code b)%N.

Fixpoint str_eqb (a b : str) : bool :=
  match a, b with
  | EmptyStr, EmptyStr => true
  | Str c a', Str d b' => char_eqb c d && str_eqb a' b'
  | _, _ => false
  end.

Infix "=?" := str_eqb : str_scope.

Definition char_dec (a b : char) : {a = b} + {a <> b}.
Proof. decide equality. apply ascii_dec. Defined.

Definition str_dec (a b : str) : {a = b} + {a <> b}.
Proof. decide equality. apply char_dec. Defined.

(** The characters of a string, and the string of a list of characters. *)
Fixpoint chars (s : str) : list char :=
  match s with
  | EmptyStr => []
  | Str c s' => c :: chars s'
  end.

(** [a + b] on strings. *)
Fixpoint append (a b : str) : str :=
  match a with
  | EmptyStr => b
  | Str c a' => Str c (append a' b)
  end.

Infix "++" := append : str_scope.

Fixpoint of_chars (l : list char) : str :=
  match l with
  | [] => EmptyStr
  | c :: l' => Str c (of_chars l')
  end.

(** ** Python values, exceptions, results *)

Inductive value : Type :=
| VNone
| VInt (n : Z)
| VStr (s : str)
| VList (l : list value)
| VDict (items : list (value * value)).

Inductive exn : Type :=
| TypeError
| ValueError
| NameError
| StatisticsError
| OtherError.

Inductive result (A : Type) : Type :=
| Ok (a : A)
| Raise (e : exn).

Arguments Ok {A} a.
Arguments Raise {A} e.

(** [except ValueError]: [statistics.StatisticsError] derives from
    [ValueError]. *)
Definition isinstance_ValueError (e : exn) : bool :=
  match e with
  | ValueError | StatisticsError => true
  | _ => false
  end.

(** Truth value of an object, as tested by [if not timestamps]. *)
Definition truthy (v : value) : bool :=
  match v with
  | VNone => false
  | VInt n => negb (n =? 0)%Z
  | VStr s => negb (s =? "")%str
  | VList l => match l with [] => false | _ => true end
  | VDict items => match items with [] => false | _ => true end
  end.

(** Equality of objects ([==], as used by [in] on a list). *)
Fixpoint value_eqb (x y : value) {struct x} : bool :=
  match x, y with
  | VNone, VNone => true
  | VInt a, VInt b => (a =? b)%Z
  | VStr a, VStr b => (a =? b)%str
  | VList a, VList b =>
      (fix list_eqb (a b : list value) {struct a} : bool :=
         match a, b with
         | [], [] => true
         | u :: a', v :: b' => value_eqb u v && list_eqb a' b'
         | _, _ => false
         end) a b
  | VDict a, VDict b =>
      (fix items_eqb (a b : list (value * value)) {struct a} : bool :=
         match a, b with
         | [], [] => true
         | (k, u) :: a', (k', v) :: b' =>
             value_eqb k k' && value_eqb u v && items_eqb a' b'
         | _, _ => false
         end) a b
  | _, _ => false
  end.

(** [x in l] *)
Definition contains (l : list value) (x : value) : bool :=
  existsb (value_eqb x) l.

(** ** Induction on values *)

Section value_induction.
Variable P : value -> Prop.
Hypothesis HNone : P VNone.
Hypothesis HInt : forall n, P (VInt n).
Hypothesis HStr : forall s, P (VStr s).
Hypothesis HList : forall l, Forall P l -> P (VList l).
Hypothesis HDict :
  forall items, Forall (fun kv => P (fst kv) /\ P (snd kv)) items ->
                P (VDict items).

Fixpoint value_ind' (v : value) : P v :=
  match v with
  | VNone => HNone
  | VInt n => HInt n
  | VStr s => HStr s
  | VList l =>
      HList l
        ((fix go (l : list value) : Forall P l :=
            match l with
            | [] => Forall_nil P
            | x :: l' => Forall_cons x (value_ind' x) (go l')
            end) l)
  | VDict items =>
      HDict items
        ((fix go (l : list (value * value))
            : Forall (fun kv => P (fst kv) /\ P (snd kv)) l :=
            match l with
            | [] => Forall_nil _
            | (k, x) :: l' =>
                Forall_cons (k, x) (conj (value_ind' k) (value_ind' x))
                  (go l')
            end) items)
  end.
End value_induction.

(** ** [str.lower], [re.sub] and [str.strip] *)

Definition between (lo hi : N) (c : char) : bool :=
  ((lo <=? code c) && (code c <=? hi))%N.

(** [str.isspace] on one character: the white space of [\s] and of
    [strip()]. *)
Definition is_space (c : char) : bool :=
  between 9 13 c || between 28 32 c || (code c =? 133)%N || (code c =? 160)%N.

(** The capital letters of Latin-1. *)
Definition is_upper (c : char) : bool :=
  between 65 90 c || (between 192 222 c && negb (code c =? 215)%N).

(** [c.lower()] for one character. *)
Definition lower_char (c : char) : char :=
  match c with
  | Latin1 _ => if is_upper c then Latin1 (ascii_of_N (code c + 32)) else c
  | U0178 => Latin1 (ascii_of_N 255)
  | U1E9E => Latin1 (ascii_of_N 223)
  | U212A => Latin1 (ascii_of_N 107)
  | U212B => Latin1 (ascii_of_N 229)
  end.

(** [s.lower()] *)
Fixpoint lower (s : str) : str :=
  match s with
  | EmptyStr => EmptyStr
  | Str c s' => Str (lower_char c) (lower s')
  end.

(** The default cleaning rule, the character class [[^a-zA-Z0-9\s]]: the
    characters it matches. *)
Definition default_cleaning (c : char) : bool :=
  negb (between 97 122 c || between 65 90 c || between 48 57 c || is_space c).

(** [re.sub(cleaning_regex, '', s)] for a rule that is a character class,
    given by the characters it matches. *)
Fixpoint re_sub (cleaning : char -> bool) (s : str) : str :=
  match s with
  | EmptyStr => EmptyStr
  | Str c s' =>
      if cleaning c then re_sub cleaning s' else Str c (re_sub cleaning s')
  end.

Fixpoint lstrip (s : str) : str :=
  match s with
  | EmptyStr => EmptyStr
  | Str c s' => if is_space c then lstrip s' else s
  end.

Fixpoint rstrip (s : str) : str :=
  match s with
  | EmptyStr => EmptyStr
  | Str c s' =>
      match rstrip s' with
      | EmptyStr => if is_space c then EmptyStr else Str c EmptyStr
      | r => Str c r
      end
  end.

(** [s.strip()] *)
Definition strip (s : str) : str := rstrip (lstrip s).

(** ** [detect_repeated_phrases] *)

(** [phrase_counts[key] += 1] on a [defaultdict(int)], kept as the list of
    its items in insertion order. *)
Fixpoint increment (key : str) (phrase_counts : list (str * Z))
  : list (str * Z) :=
  match phrase_counts with
  | [] => [(key, 1%Z)]
  | (k, n) :: d =>
      if (k =? key)%str then (k, (n + 1)%Z) :: d
      else (k, n) :: increment key d
  end.

Section PhraseRepetitionDetector.
Variable repetition_threshold : Z.
Variable cleaning_regex : char -> bool.

(** [re.sub(cleaning_regex, '', post.lower()).strip()] *)
Definition cleaned (post : str) : str :=
  strip (re_sub cleaning_regex (lower post)).

(** The loop over [posts]: a non-string entry is logged and skipped. *)
Fixpoint count_phrases (posts : list value) (phrase_counts : list (str * Z))
  : list (str * Z) :=
  match posts with
  | [] => phrase_counts
  | VStr post :: rest =>
      count_phrases rest (increment (cleaned post) phrase_counts)
  | _ :: rest => count_phrases rest phrase_counts
  end.

Definition detect_repeated_phrases (posts : value) : result (list str) :=
  match posts with
  | VList posts =>
      let phrase_counts := count_phrases posts [] in
      Ok (map fst
            (filter (fun item => (repetition_threshold <? snd item)%Z)
               phrase_counts))
  | _ => Ok []
  end.
End PhraseRepetitionDetector.

(** ** [sentiment_analysis] *)

(** [sum(l)]: the left-to-right sum starting from 0. *)
Definition sum (l : list Q) : Q := fold_left Qplus l 0%Q.

(** [len(l)] as a number. *)
Definition len {A} (l : list A) : Q := inject_Z (Z.of_nat (List.length l)).

Section SentimentAggregator.
(** [TextBlob(post).sentiment.polarity] *)
Variable polarity : str -> result Q.

(** The loop over [posts]: a non-string entry is skipped, and so is a post
    whose scoring raises ([except Exception]). *)
Fixpoint score_posts (posts : list value) (sentiments : list Q) : list Q :=
  match posts with
  | [] => sentiments
  | VStr post :: rest =>
      match polarity post with
      | Ok p => score_posts rest (sentiments ++ [p])
      | Raise _ => score_posts rest sentiments
      end
  | _ :: rest => score_posts rest sentiments
  end.

Definition sentiment_analysis (posts : value) : result Q :=
  match posts with
  | VList [] => Ok 0%Q
  | VList posts =>
      match score_posts posts [] with
      | [] => Ok 0%Q
      | sentiments => Ok (sum sentiments / len sentiments)%Q
      end
  | _ => Ok 0%Q
  end.
End SentimentAggregator.

(** ** Statements that raise and mutate: the monad [M]

    The state is the list [suspicious_accounts]; an exception leaves the
    state as it was when it was raised. *)

Definition M (A : Type) : Type := list value -> result A * list value.

Definition ret {A} (a : A) : M A := fun s => (Ok a, s).

Definition bind {A B} (m : M A) (k : A -> M B) : M B :=
  fun s =>
    match m s with
    | (Ok a, s') => k a s'
    | (Raise e, s') => (Raise e, s')
    end.

(** An expression that may raise and does not touch the state. *)
Definition lift {A} (r : result A) : M A := fun s => (r, s).

(** [try: m except Exception: handler] *)
Definition try_except {A} (m : M A) (handler : exn -> M A) : M A :=
  fun s =>
    match m s with
    | (Ok a, s') => (Ok a, s')
    | (Raise e, s') => handler e s'
    end.

Declare Scope monad_scope.
Delimit Scope monad_scope with monad.
Notation "x <- m ;; k" := (bind m (fun x => k))
  (at level 61, m at next level, right associativity) : monad_scope.
Notation "m ;; k" := (bind m (fun _ => k))
  (at level 61, right associativity) : monad_scope.
Local Open Scope monad_scope.

(** [for x in l: body] *)
Fixpoint for_each {A} (l : list A) (body : A -> M unit) : M unit :=
  match l with
  | [] => ret tt
  | x :: l' => body x ;; for_each l' body
  end.

(** ** Double-precision arithmetic

    A finite Python float is a rational [m * 2 ^ p] with [|m| <= 2 ^ 53]
    and [-1074 <= p].  [double q] is the float nearest to [q], ties going to
    the even significand (IEEE 754 binary64, round-half-even, gradual
    underflow). *)

Definition pow2 (e : Z) : Q := (2 ^ e)%Q.

(** The exponent [e] with [2 ^ e <= a < 2 ^ (e + 1)], for [0 < a]. *)
Definition ilog2 (a : Q) : Z :=
  let e := (Z.log2 (Qnum a) - Z.log2 (Zpos (Qden a)))%Z in
  if Qle_bool (pow2 e) a then e else (e - 1)%Z.

Definition round_half_even (q : Q) : Z :=
  let f := Qfloor q in
  match (q - inject_Z f ?= 1 # 2)%Q with
  | Lt => f
  | Gt => (f + 1)%Z
  | Eq => if Z.even f then f else (f + 1)%Z
  end.

Definition double_pos (a : Q) : Q :=
  let p := Z.max (ilog2 a - 52) (-1074) in
  (inject_Z (round_half_even (a / pow2 p)) * pow2 p)%Q.

Definition double (q : Q) : Q :=
  let q := Qred q in
  match (q ?= 0)%Q with
  | Eq => 0%Q
  | Gt => double_pos q
  | Lt => (- double_pos (- q))%Q
  end.

(** [x + y], [x - y], [x * y] and [x / y] when an operand is a float: an
    operand that is not a float is converted first, and the exact result of
    the operation is rounded. *)
Definition float_add (x y : Q) : Q := double (double x + double y)%Q.
Definition float_sub (x y : Q) : Q := double (double x - double y)%Q.
Definition float_mul (x y : Q) : Q := double (double x * double y)%Q.
Definition float_div (x y : Q) : Q := double (double x / double y)%Q.

(** [sum(l)] on floats: the additions are made from left to right, each one
    rounded, as the loop of CPython 3.11 makes them (later versions
    compensate the rounding errors of the additions). *)
Definition float_sum (l : list Q) : Q := fold_left float_add l 0%Q.

(** ** [detect_abnormal_posting] *)

(** A [datetime.datetime]: the microseconds since the epoch of its time line
    (UTC for an aware datetime, the local clock for a naive one). *)
Record datetime : Type := { micros : Z; aware : bool }.

(** [a <= b] on datetimes of the same kind. *)
Module DatetimeOrder <: TotalLeBool.
Definition t := datetime.
Definition leb (a b : datetime) := (micros a <=? micros b)%Z.
Theorem leb_total : forall a1 a2, leb a1 a2 = true \/ leb a2 a1 = true.
Proof. intros a1 a2. unfold leb. rewrite !Z.leb_le. lia. Qed.
End DatetimeOrder.

Module DatetimeSort := Sort DatetimeOrder.

(** All the datetimes are aware, or all are naive. *)
Definition comparable (l : list datetime) : bool :=
  forallb aware l || forallb (fun d => negb (aware d)) l.

(** [sorted(l)]: comparing a naive with an aware datetime raises
    [TypeError]. *)
Definition sorted (l : list datetime) : result (list datetime) :=
  if comparable l then Ok (DatetimeSort.sort l) else Raise TypeError.

(** A number of microseconds, in seconds. *)
Definition seconds (d : Z) : Q := (inject_Z d / inject_Z 1000000)%Q.

(** [timedelta.total_seconds()] for a difference of [d] microseconds: the
    quotient of two integers, rounded once. *)
Definition total_seconds (d : Z) : Q := double (seconds d).

(** [[(ts[i] - ts[i-1]).total_seconds() for i in range(1, len(ts))]], on
    datetimes of one kind. *)
Fixpoint intervals_of (timestamps : list datetime) : list Q :=
  match timestamps with
  | a :: (b :: _) as rest =>
      total_seconds (micros b - micros a) :: intervals_of rest
  | _ => []
  end.

(** [x < y] on numbers. *)
Definition Qltb (x y : Q) : bool := negb (Qle_bool y x).

Section IntervalAnomalyDetector.
(** [parser.parse] and [statistics.stdev] *)
Variable parse : str -> result datetime.
Variable stdev : list Q -> result Q.
Variable interval_threshold outlier_threshold_stddev : Q.

(** Lines 44-46: the first element that is not a string raises. *)
Fixpoint check_strings (timestamps : list value) : result unit :=
  match timestamps with
  | [] => Ok tt
  | VStr _ :: rest => check_strings rest
  | _ :: _ => Raise TypeError
  end.

(** [parser.parse(ts)]; the parser accepts strings only. *)
Definition parser_parse (ts : value) : result datetime :=
  match ts with
  | VStr s => parse s
  | _ => Raise TypeError
  end.

(** Lines 48-54: a [ValueError] drops the element, any other exception
    leaves the loop. *)
Fixpoint parse_timestamps (timestamps : list value)
  (parsed_timestamps : list datetime) : result (list datetime) :=
  match timestamps with
  | [] => Ok parsed_timestamps
  | ts :: rest =>
      match parser_parse ts with
      | Ok t => parse_timestamps rest (parsed_timestamps ++ [t])
      | Raise e =>
          if isinstance_ValueError e
          then parse_timestamps rest parsed_timestamps
          else Raise e
      end
  end.

(** [if account not in suspicious_accounts:
       suspicious_accounts.append(account)] *)
Definition flag (account : value) : M unit :=
  fun suspicious_accounts =>
    (Ok tt,
     if contains suspicious_accounts account then suspicious_accounts
     else suspicious_accounts ++ [account]).

(** Lines 62-73. *)
Definition apply_rules (account : value) (intervals : list Q) : M unit :=
  match intervals with
  | [] => ret tt
  | _ =>
      let avg_interval := float_div (float_sum intervals) (len intervals) in
      (if Qltb avg_interval interval_threshold then flag account
       else ret tt) ;;
      if (1 <? List.length intervals)%nat then
        stddev <- lift (stdev intervals) ;;
        for_each intervals (fun interval =>
          if Qltb interval interval_threshold
             && Qltb interval
                  (float_sub avg_interval
                     (float_mul outlier_threshold_stddev stddev))
          then flag account
          else ret tt)
      else ret tt
  end.

(** The body of the [try], lines 42-73. *)
Definition try_body (account timestamps : value) : M unit :=
  match timestamps with
  | VList timestamps =>
      lift (check_strings timestamps) ;;
      parsed_timestamps <- lift (parse_timestamps timestamps []) ;;
      if (List.length parsed_timestamps <? 2)%nat then ret tt
      else
        timestamps <- lift (sorted parsed_timestamps) ;;
        apply_rules account (intervals_of timestamps)
  | _ => lift (Raise TypeError)
  end.

(** One iteration of the loop over [accounts_data.items()]. *)
Definition visit (item : value * value) : M unit :=
  let (account, timestamps) := item in
  if negb (truthy timestamps) then ret tt
  else try_except (try_body account timestamps) (fun _ => ret tt).

Definition detect_abnormal_posting (accounts_data : value)
  : result (list value) :=
  match accounts_data with
  | VDict items => Ok (snd (for_each items visit []))
  | _ => Ok []
  end.
End IntervalAnomalyDetector.

(** ** [analyze_network] *)

(** The part of the [networkx] API the analyzer uses.  A component is
    returned as the list of its nodes. *)
Record networkx : Type := {
  graph : Type;
  Graph : unit -> result graph;
  add_edge : graph -> str -> str -> result graph;
  connected_components : graph -> result (list (list str))
}.

Section ClusterAnalyzer.
Variable nx : networkx.
Variable cluster_threshold : Z.

(** Lines 142-150: a friend that is not a string is skipped, and so is an
    edge whose insertion raises. *)
Fixpoint add_friends (account : str) (friends : list value) (G : graph nx)
  : graph nx :=
  match friends with
  | [] => G
  | VStr friend :: rest =>
      match add_edge nx G account friend with
      | Ok G' => add_friends account rest G'
      | Raise _ => add_friends account rest G
      end
  | _ :: rest => add_friends account rest G
  end.

(** Lines 135-150. *)
Fixpoint add_accounts (items : list (value * value)) (G : graph nx)
  : graph nx :=
  match items with
  | [] => G
  | (account, friends) :: rest =>
      match friends with
      | VList friends =>
          match account with
          | VStr account => add_accounts rest (add_friends account friends G)
          | _ => add_accounts rest G
          end
      | _ => add_accounts rest G
      end
  end.

Definition analyze_network (accounts : value)
  : result (list (list str)) :=
  match accounts with
  | VDict items =>
      match Graph nx tt with
      | Raise e => Raise e
      | Ok G =>
          match connected_components nx (add_accounts items G) with
          | Raise e => Raise e
          | Ok components =>
              Ok (filter
                    (fun component =>
                       (cluster_threshold <? Z.of_nat (List.length component))%Z)
                    components)
          end
      end
  | _ => Ok []
  end.
End ClusterAnalyzer.

(** * Vocabulary of the specification *)

(** ** Phrase repetition *)

(** The string entries of a corpus, in order. *)
Definition string_entries (posts : list value) : list str :=
  flat_map (fun post => match post with VStr s => [s] | _ => [] end) posts.

(** Leading white space dropped. *)
Fixpoint drop_spaces (l : list char) : list char :=
  match l with
  | [] => []
  | c :: l' => if is_space c then drop_spaces l' else l
  end.

(** Leading and trailing white space trimmed. *)
Definition trim (l : list char) : list char :=
  rev (drop_spaces (rev (drop_spaces l))).

(** The normalized key of a post: the post lowercased, the characters that
    match the cleaning rule removed, white space trimmed at both ends. *)
Definition normalized_key (cleaning : char -> bool) (post : str) : str :=
  of_chars
    (trim
       (filter (fun c => negb (cleaning c))
          (map lower_char (chars post)))).

(** How many string entries of the corpus have the normalized key [key]. *)
Definition frequency (cleaning : char -> bool) (key : str)
  (posts : list value) : Z :=
  Z.of_nat
    (count_occ str_dec
       (map (normalized_key cleaning) (string_entries posts)) key).

(** A post made only of white space and of characters the default rule
    removes. *)
Definition blank (post : str) : bool :=
  forallb (fun c => default_cleaning c || is_space c)
    (chars post).

(** A post that, once lowercased, is made only of white space and of
    characters the default rule removes. *)
Definition lowered_blank (post : str) : bool :=
  forallb (fun c => default_cleaning c || is_space c)
    (map lower_char (chars post)).

(** The count recorded for [key] in a [defaultdict(int)]. *)
Fixpoint lookup (key : str) (phrase_counts : list (str * Z)) : Z :=
  match phrase_counts with
  | [] => 0%Z
  | (k, n) :: d => if (k =? key)%str then n else lookup key d
  end.

(** ** Sentiment *)

(** The polarity scores of the string posts whose scoring succeeds. *)
Definition scores (polarity : str -> result Q) (posts : list value)
  : list Q :=
  flat_map
    (fun post =>
       match post with
       | VStr s => match polarity s with Ok p => [p] | Raise _ => [] end
       | _ => []
       end)
    posts.

Definition arithmetic_mean (l : list Q) : Q :=
  (fold_right Qplus 0 l / len l)%Q.

(** No entry of the corpus yields a score. *)
Definition unscored (polarity : str -> result Q) (post : value) : Prop :=
  match post with
  | VStr s => exists e, polarity s = Raise e
  | _ => True
  end.

Definition is_dict (v : value) : bool :=
  match v with VDict _ => true | _ => false end.

Definition is_list (v : value) : bool :=
  match v with VList _ => true | _ => false end.

(** ** Posting intervals *)

(** Gaps between consecutive instants, in seconds as [total_seconds]
    gives them. *)
Definition gaps (instants : list datetime) : list Q :=
  map (fun p => total_seconds (micros (snd p) - micros (fst p)))
    (combine instants (tl instants)).


(** Ascending order of instants. *)
Definition ascending (instants : list datetime) : Prop :=
  StronglySorted (fun a b => (micros a <= micros b)%Z) instants.

(** The mean of the gaps as the code computes it: the rounded sum divided
    by the count. *)
Definition mean_gap (gaps : list Q) : Q :=
  float_div (float_sum gaps) (len gaps).

Section rules.
Variable parse : str -> result datetime.
Variable stdev : list Q -> result Q.
Variable interval_threshold outlier_threshold_stddev : Q.

(** The instants of the timestamps that parse. *)
Definition parsed_instants (timestamps : list str) : list datetime :=
  flat_map (fun ts => match parse ts with Ok t => [t] | Raise _ => [] end)
    timestamps.

(** Some timestamp makes the parser fail with something else than a parse
    error ([ValueError]); the account is then given up. *)
Definition gives_up (timestamps : list str) : Prop :=
  exists ts e,
    In ts timestamps /\ parse ts = Raise e /\ isinstance_ValueError e = false.

(** Rule A (cadence). *)
Definition rule_A (gaps : list Q) : Prop :=
  (mean_gap gaps < interval_threshold)%Q.

(** Rule B (burst). *)
Definition rule_B (gaps : list Q) : Prop :=
  2 <= List.length gaps
  /\ exists stddev,
      stdev gaps = Ok stddev
      /\ exists gap,
          In gap gaps
          /\ (gap < interval_threshold)%Q
          /\ (gap < float_sub (mean_gap gaps)
                      (float_mul outlier_threshold_stddev stddev))%Q.

(** The value of an account is a list of strings on which the parser does
    not give up, at least two of them parse, the parsed datetimes are of one
    kind, and their gaps in ascending order satisfy rule A or rule B. *)
Definition suspicious (timestamps : value) : Prop :=
  exists strs instants,
    timestamps = VList (map VStr strs)
    /\ ~ gives_up strs
    /\ comparable (parsed_instants strs) = true
    /\ Permutation instants (parsed_instants strs)
    /\ ascending instants
    /\ 2 <= List.length instants
    /\ (rule_A (gaps instants) \/ rule_B (gaps instants)).
End rules.

(** [suspicious_accounts] after [flag account]. *)
Definition add_once (account : value) (suspicious_accounts : list value)
  : list value :=
  if contains suspicious_accounts account then suspicious_accounts
  else suspicious_accounts ++ [account].

(** ** Stand-ins for the collaborators, used in the examples *)

Definition digit (c : char) : option Z :=
  if between 48 57 c then Some (Z.of_N (code c) - 48)%Z else None.

(** The microseconds of a clock time [HH:MM:SS] of one day, with [tenths]
    tenths of a second more. *)
Definition clock (h1 h2 c1 m1 m2 c2 s1 s2 : char) (tenths : Z) : option Z :=
  match digit h1, digit h2, digit m1, digit m2, digit s1, digit s2 with
  | Some h1, Some h2, Some m1, Some m2, Some s1, Some s2 =>
      let h := (10 * h1 + h2)%Z in
      let m := (10 * m1 + m2)%Z in
      let sec := (10 * s1 + s2)%Z in
      if (code c1 =? 58)%N && (code c2 =? 58)%N
         && (h <? 24)%Z && (m <? 60)%Z && (sec <? 60)%Z
      then Some (((h * 60 + m) * 60 + sec) * 1000000 + tenths * 100000)%Z
      else None
  | _, _, _, _, _, _ => None
  end.

(** [HH:MM:SS] or [HH:MM:SS.d] *)
Definition clock_time (l : list char) : option Z :=
  match l with
  | [h1; h2; c1; m1; m2; c2; s1; s2] => clock h1 h2 c1 m1 m2 c2 s1 s2 0
  | [h1; h2; c1; m1; m2; c2; s1; s2; dot; d] =>
      match digit d with
      | Some d =>
          if (code dot =? 46)%N then clock h1 h2 c1 m1 m2 c2 s1 s2 d else None
      | None => None
      end
  | _ => None
  end.

(** A parser for clock times of one day: [HH:MM:SS], with an optional tenth
    of a second, gives a naive datetime, and an aware one when a [Z] (UTC)
    follows; anything else is a parse error. *)
Definition parse_clock (ts : str) : result datetime :=
  let l := chars ts in
  let zone :=
    match rev l with
    | z :: r => if (code z =? 90)%N then Some (rev r) else None
    | [] => None
    end in
  match zone with
  | Some l' =>
      match clock_time l' with
      | Some t => Ok {| micros := t; aware := true |}
      | None => Raise ValueError
      end
  | None =>
      match clock_time l with
      | Some t => Ok {| micros := t; aware := false |}
      | None => Raise ValueError
      end
  end.

Definition sample_variance (l : list Q) : Q :=
  let m := arithmetic_mean l in
  (fold_right (fun x acc => (x - m) * (x - m) + acc) 0 l / (len l - 1))%Q.

(** A standard deviation rounded down to a millionth, as a float; like
    [statistics.stdev] it needs two data points. *)
Definition stdev_floor (l : list Q) : result Q :=
  if (List.length l <? 2)%nat then Raise StatisticsError
  else
    let v := sample_variance l in
    Ok (double (Z.sqrt (Qnum v * 1000000000000 / Zpos (Qden v)) # 1000000)%Q).


(** A global name that is not bound: evaluating the call raises
    [NameError]. *)
Definition unbound {A B : Type} (_ : A) : result B := Raise NameError.

(** ** Friend graphs *)

(** The edges of the valid pairs: the account key is a string, its value is
    a list, the friend is a string. *)
Definition valid_edges (items : list (value * value)) : list (str * str) :=
  flat_map
    (fun item =>
       match item with
       | (VStr account, VList friends) =>
           map (pair account) (string_entries friends)
       | _ => []
       end)
    items.

Section undirected_graph.
Variable E : list (str * str).

(** An edge joins its two ends, in both directions. *)
Definition linked (x y : str) : Prop := In (x, y) E \/ In (y, x) E.

Definition node (x : str) : Prop := exists y, linked x y.

Inductive connected : str -> str -> Prop :=
| connected_refl (x : str) : connected x x
| connected_step (x y z : str) :
    linked x y -> connected y z -> connected x z.

(** A maximal connected set of nodes: all that is connected to one node. *)
Definition component (c : list str) : Prop :=
  exists x, node x /\ forall y, In y c <-> connected x y.

(** [cs] lists, each once and without repeating a node, the components of
    the graph. *)
Definition partition_into_components (cs : list (list str)) : Prop :=
  NoDup cs
  /\ (forall c, In c cs -> NoDup c /\ component c)
  /\ (forall x, node x -> exists c, In c cs /\ In x c)
  /\ (forall c c' x, In c cs -> In c' cs -> In x c -> In x c' -> c = c').
End undirected_graph.

(** What the analyzer relies on in [networkx]: a graph is known by the edges
    added to it; [Graph()] has none, [add_edge] adds one and does not raise,
    and [connected_components] yields the components. *)
Definition conforms (nx : networkx) : Prop :=
  exists edges : graph nx -> list (str * str),
    (exists G, Graph nx tt = Ok G /\ edges G = [])
    /\ (forall G u v,
          exists G', add_edge nx G u v = Ok G'
                     /\ edges G' = edges G ++ [(u, v)])
    /\ (forall G,
          exists cs, connected_components nx G = Ok cs
                     /\ partition_into_components (edges G) cs).

(** *** An implementation of the graph API *)

Definition touches (u v : str) (c : list str) : bool :=
  existsb (str_eqb u) c || existsb (str_eqb v) c.

(** The components after the edge [(u, v)] is added: those that hold [u] or
    [v] are merged, together with [u] and [v]. *)
Definition merge (u v : str) (cs : list (list str))
  : list (list str) :=
  filter (fun c => negb (touches u v c)) cs
  ++ [nodup str_dec (u :: v :: List.concat (filter (touches u v) cs))].

Definition components (E : list (str * str)) : list (list str) :=
  fold_left (fun cs e => merge (fst e) (snd e) cs) E [].

Definition edge_list_nx : networkx :=
  {| graph := list (str * str);
     Graph := fun _ => Ok [];
     add_edge := fun G u v => Ok (G ++ [(u, v)]);
     connected_components := fun G => Ok (components G) |}.

(** The module [setup.py] as it is written: [import networkx as nx],
    [from textblob import TextBlob] and [from dateutil import parser] are
    statements of the body of [install_dependencies] (lines 14-16) and bind
    names local to that function; at module level [nx], [TextBlob] and
    [parser] are not bound. *)
Definition module_parse : str -> result datetime := unbound.

Definition module_polarity : str -> result Q := unbound.

Definition module_nx : networkx :=
  {| graph := unit;
     Graph := unbound;
     add_edge := fun _ _ => unbound;
     connected_components := unbound |}.

(** ** Trimmed strings *)

Definition all_space (s : str) : bool :=
  forallb is_space (chars s).

Definition starts_with_space (s : str) : bool :=
  match s with
  | EmptyStr => false
  | Str c _ => is_space c
  end.

Fixpoint ends_with_space (s : str) : bool :=
  match s with
  | EmptyStr => false
  | Str c EmptyStr => is_space c
  | Str _ s' => ends_with_space s'
  end.


(** ** Further vocabulary *)

(** The elements of [l] at the positions marked in [mask]. *)
Fixpoint select {A : Type} (mask : list bool) (l : list A) : list A :=
  match mask, l with
  | m :: mask', x :: l' => if m then x :: select mask' l' else select mask' l'
  | _, _ => []
  end.

(** The value of an account is not a list of strings: it is no list, or the
    check of its elements raises. *)
Definition malformed (timestamps : value) : Prop :=
  match timestamps with
  | VList l => check_strings l = Raise TypeError
  | _ => True
  end.

(** The distinct elements of a list, in the order of their first
    occurrence. *)
Fixpoint first_occurrences (l : list str) : list str :=
  match l with
  | [] => []
  | x :: l' => x :: remove str_dec x (first_occurrences l')
  end.

(** The normalized keys of the string entries of a corpus, in order. *)
Definition keys_of (cleaning : char -> bool) (posts : list value)
  : list str :=
  map (normalized_key cleaning) (string_entries posts).

(** [k] is not in [K]. *)
Definition absent (K : list str) (k : str) : bool :=
  if in_dec str_dec k K then false else true.

(** The items that [analyze_network] uses: the string keys with a list
    value, and of each list the string entries. *)
Definition valid_items (items : list (value * value)) : list (value * value) :=
  flat_map
    (fun item =>
       match item with
       | (VStr account, VList friends) =>
           [(VStr account, VList (map VStr (string_entries friends)))]
       | _ => []
       end)
    items.

(** [x] is named by a valid pair of the dictionary, as the account or as the
    friend. *)
Definition named (items : list (value * value)) (x : str) : Prop :=
  exists account friends friend,
    In (VStr account, VList friends) items
    /\ In (VStr friend) friends
    /\ (x = account \/ x = friend).

(** A graph API whose [add_edge] raises on every call. *)
Definition failing_add_edge_nx : networkx :=
  {| graph := unit;
     Graph := fun _ => Ok tt;
     add_edge := fun _ _ _ => Raise OtherError;
     connected_components := fun _ => Ok [] |}.

(** * Properties *)

(** ** Equality of strings *)

Lemma code_inj (a b : char) : code a = code b -> a = b.
Proof.
  destruct a as [x| | | |], b as [y| | | |]; simpl; intros H;
    try reflexivity; try discriminate H;
    try (pose proof (N_ascii_bounded x); lia);
    try (pose proof (N_ascii_bounded y); lia).
  f_equal. rewrite <- (ascii_N_embedding x), <- (ascii_N_embedding y).
  congruence.
Qed.

Lemma char_eqb_eq (a b : char) : char_eqb a b = true <-> a = b.
Proof.
  unfold char_eqb. rewrite N.eqb_eq. split; [apply code_inj | congruence].
Qed.

Lemma str_eqb_eq (a b : str) : (a =? b)%str = true <-> a = b.
Proof.
  revert b. induction a as [|c a IH]; intros [|d b]; simpl;
    try (split; [discriminate | discriminate]); [tauto|].
  rewrite andb_true_iff, char_eqb_eq, IH. split.
  - intros [-> ->]. reflexivity.
  - intros E. injection E as -> ->. auto.
Qed.

Lemma str_eqb_refl (a : str) : (a =? a)%str = true.
Proof. apply str_eqb_eq. reflexivity. Qed.

Lemma str_eqb_spec (a b : str) : reflect (a = b) (a =? b)%str.
Proof.
  destruct (a =? b)%str eqn:E; constructor.
  - apply str_eqb_eq. exact E.
  - intros H. apply str_eqb_eq in H. congruence.
Qed.

Lemma of_chars_chars (s : str) : of_chars (chars s) = s.
Proof. induction s as [|c s IH]; simpl; [reflexivity | rewrite IH; reflexivity]. Qed.

(** ** Equality of values *)

Lemma value_eqb_eq (x y : value) : value_eqb x y = true <-> x = y.
Proof.
  revert y. induction x using value_ind'; intros y; destruct y; simpl;
    try (split; [discriminate | intros E; discriminate E]);
    try (split; reflexivity).
  - rewrite Z.eqb_eq. split; congruence.
  - rewrite str_eqb_eq. split; congruence.
  - rename l0 into m. revert m.
    induction H as [|u a Hu Ha IH]; intros [|v b];
      try (split; [discriminate | intros E; discriminate E]).
    + split; reflexivity.
    + rewrite andb_true_iff, Hu, IH. split.
      * intros [-> E]. injection E as ->. reflexivity.
      * intros E. injection E as -> ->. auto.
  - rename items0 into m. revert m.
    induction H as [|[k u] a [Hk Hu] Ha IH]; intros [|[k' v] b];
      try (split; [discriminate | intros E; discriminate E]).
    + split; reflexivity.
    + simpl in Hk, Hu. rewrite !andb_true_iff, Hk, Hu, IH. split.
      * intros [[-> ->] E]. injection E as ->. reflexivity.
      * intros E. injection E as -> -> ->. auto.
Qed.

Lemma contains_In (l : list value) (x : value) :
  contains l x = true <-> In x l.
Proof.
  unfold contains. rewrite existsb_exists. split.
  - intros [y [Hy E]]. apply value_eqb_eq in E. subst. exact Hy.
  - intros H. exists x. split; [exact H | apply value_eqb_eq; reflexivity].
Qed.


(** ** Normalization of a post *)

Lemma lower_list (s : str) :
  chars (lower s) = map lower_char (chars s).
Proof. induction s as [|c s IH]; simpl; [reflexivity | rewrite IH; reflexivity]. Qed.

Lemma re_sub_list (cleaning : char -> bool) (s : str) :
  chars (re_sub cleaning s)
  = filter (fun c => negb (cleaning c)) (chars s).
Proof.
  induction s as [|c s IH]; simpl; [reflexivity|].
  destruct (cleaning c); simpl; rewrite IH; reflexivity.
Qed.

Lemma lstrip_list (s : str) :
  chars (lstrip s) = drop_spaces (chars s).
Proof.
  induction s as [|c s IH]; simpl; [reflexivity|].
  destruct (is_space c); [exact IH | reflexivity].
Qed.

Lemma drop_spaces_snoc (l : list char) (c : char) :
  drop_spaces (l ++ [c])
  = match drop_spaces l with
    | [] => if is_space c then [] else [c]
    | r => r ++ [c]
    end.
Proof.
  induction l as [|a l IH]; simpl; [reflexivity|].
  destruct (is_space a); [exact IH | reflexivity].
Qed.

Lemma rstrip_list (s : str) :
  chars (rstrip s)
  = rev (drop_spaces (rev (chars s))).
Proof.
  induction s as [|c s IH]; simpl; [reflexivity|].
  rewrite drop_spaces_snoc.
  destruct (drop_spaces (rev (chars s))) as [|a r] eqn:E.
  - simpl in IH. destruct (rstrip s); [|discriminate IH].
    destruct (is_space c); reflexivity.
  - rewrite rev_app_distr. change (rev [c]) with [c]. cbn [app].
    rewrite <- IH. destruct (rstrip s) as [|d t]; [|reflexivity].
    exfalso. apply (f_equal (@List.length char)) in IH.
    simpl in IH. rewrite length_app in IH. simpl in IH. lia.
Qed.

(** The key the code computes is the normalized key. *)
Lemma cleaned_normalized_key (cleaning : char -> bool) (post : str) :
  cleaned cleaning post = normalized_key cleaning post.
Proof.
  unfold cleaned, normalized_key, strip, trim.
  rewrite <- lower_list, <- re_sub_list, <- lstrip_list, <- rstrip_list.
  symmetry. apply of_chars_chars.
Qed.

(** ** Phrase repetition *)

Lemma lookup_increment (key k : str) (d : list (str * Z)) :
  lookup k (increment key d)
  = ((if str_dec key k then 1 else 0) + lookup k d)%Z.
Proof.
  induction d as [|[k0 n] d IH]; simpl.
  - destruct (str_eqb_spec key k), (str_dec key k);
      try contradiction; reflexivity.
  - destruct (str_eqb_spec k0 key) as [->|Hne]; simpl.
    + destruct (str_eqb_spec key k), (str_dec key k);
        try contradiction; lia.
    + destruct (str_eqb_spec k0 k) as [->|Hne'].
      * destruct (str_dec key k); [subst; contradiction | lia].
      * exact IH.
Qed.

Lemma increment_keys (key k : str) (d : list (str * Z)) :
  In k (map fst (increment key d)) <-> k = key \/ In k (map fst d).
Proof.
  induction d as [|[k0 n] d IH]; simpl.
  - intuition.
  - destruct (str_eqb_spec k0 key) as [->|Hne]; simpl.
    + intuition.
    + rewrite IH. intuition.
Qed.

Lemma increment_NoDup (key : str) (d : list (str * Z)) :
  NoDup (map fst d) -> NoDup (map fst (increment key d)).
Proof.
  induction d as [|[k0 n] d IH]; simpl; intros H.
  - constructor; [intros [] | constructor].
  - inversion H as [|? ? Hk Hd]; subst.
    destruct (str_eqb_spec k0 key) as [->|Hne]; simpl.
    + constructor; assumption.
    + constructor; [|auto]. rewrite increment_keys. intuition.
Qed.

Lemma increment_positive (key : str) (d : list (str * Z)) :
  Forall (fun item => (0 < snd item)%Z) d ->
  Forall (fun item => (0 < snd item)%Z) (increment key d).
Proof.
  induction d as [|[k0 n] d IH]; simpl; intros H.
  - constructor; [simpl; lia | constructor].
  - inversion H as [|? ? Hn Hd]; subst. simpl in Hn.
    destruct (str_eqb_spec k0 key); constructor; simpl; auto; lia.
Qed.

(** In a dictionary (keys without repetition), an item is what [lookup]
    finds. *)
Lemma In_lookup (k : str) (n : Z) (d : list (str * Z)) :
  NoDup (map fst d) -> In (k, n) d -> lookup k d = n.
Proof.
  induction d as [|[k0 m] d IH]; simpl; intros H Hin; [contradiction|].
  inversion H as [|? ? Hk Hd]; subst.
  destruct Hin as [E|Hin].
  - injection E as -> ->. rewrite str_eqb_refl. reflexivity.
  - destruct (str_eqb_spec k0 k) as [->|Hne]; [|auto].
    exfalso. apply Hk. apply (in_map fst) in Hin. exact Hin.
Qed.

Lemma lookup_In (k : str) (d : list (str * Z)) :
  lookup k d <> 0%Z -> In (k, lookup k d) d.
Proof.
  induction d as [|[k0 m] d IH]; simpl; intros H; [contradiction|].
  destruct (str_eqb_spec k0 k) as [->|Hne]; auto.
Qed.

Section phrase_counts.
Variable cleaning : char -> bool.

(** The invariant of the counting loop. *)
Lemma count_phrases_inv (posts : list value) (d : list (str * Z)) :
  NoDup (map fst d) ->
  Forall (fun item => (0 < snd item)%Z) d ->
  NoDup (map fst (count_phrases cleaning posts d))
  /\ Forall (fun item => (0 < snd item)%Z) (count_phrases cleaning posts d)
  /\ forall k, lookup k (count_phrases cleaning posts d)
               = (lookup k d + frequency cleaning k posts)%Z.
Proof.
  revert d. induction posts as [|post rest IH]; intros d Hd Hp.
  - simpl. repeat split; auto. intros k. unfold frequency. simpl. lia.
  - destruct post as [|n|s|l|items];
      try (simpl; exact (IH d Hd Hp)).
    simpl.
    destruct (IH (increment (cleaned cleaning s) d)
                (increment_NoDup _ _ Hd) (increment_positive _ _ Hp))
      as (H1 & H2 & H3).
    repeat split; auto.
    intros k. rewrite H3, lookup_increment. unfold frequency. simpl.
    rewrite cleaned_normalized_key.
    destruct (str_dec (normalized_key cleaning s) k); lia.
Qed.

Lemma frequency_nonneg (k : str) (posts : list value) :
  (0 <= frequency cleaning k posts)%Z.
Proof. unfold frequency. lia. Qed.

(** What the final comprehension selects. *)
Lemma detect_repeated_phrases_In (thr : Z) (posts : list value) (k : str) :
  In k (map fst (filter (fun item => (thr <? snd item)%Z)
                   (count_phrases cleaning posts [])))
  <-> (0 < frequency cleaning k posts)%Z
      /\ (thr < frequency cleaning k posts)%Z.
Proof.
  destruct (count_phrases_inv posts []) as (Hnd & Hpos & Hl);
    [constructor | constructor |].
  simpl in Hl. rewrite in_map_iff. split.
  - intros [[k' n] [E Hin]]. simpl in E. subst k'.
    apply filter_In in Hin. destruct Hin as [Hin Hthr]. simpl in Hthr.
    apply Z.ltb_lt in Hthr.
    rewrite Forall_forall in Hpos. specialize (Hpos _ Hin). simpl in Hpos.
    apply (In_lookup _ _ _ Hnd) in Hin. rewrite Hl in Hin. lia.
  - intros [H0 Hthr].
    exists (k, lookup k (count_phrases cleaning posts [])). split; auto.
    apply filter_In. split.
    + apply lookup_In. rewrite Hl. lia.
    + simpl. apply Z.ltb_lt. rewrite Hl. lia.
Qed.

Lemma detect_repeated_phrases_NoDup (thr : Z) (posts : list value) :
  NoDup (map fst (filter (fun item => (thr <? snd item)%Z)
                    (count_phrases cleaning posts []))).
Proof.
  destruct (count_phrases_inv posts []) as (Hnd & _ & _);
    [constructor | constructor |].
  revert Hnd. generalize (count_phrases cleaning posts []).
  induction l as [|[k n] l IH]; simpl; intros H; [constructor|].
  inversion H as [|? ? Hk Hl]; subst.
  destruct (thr <? n)%Z; simpl; auto.
  constructor; auto. intros Hin. apply Hk.
  apply in_map_iff in Hin. destruct Hin as [x [E Hx]].
  apply filter_In in Hx. apply in_map_iff. exists x. tauto.
Qed.

(** Entries that are not strings leave the counts as they are. *)
Lemma count_phrases_string_entries (posts : list value) (d : list (str * Z)) :
  count_phrases cleaning (map VStr (string_entries posts)) d
  = count_phrases cleaning posts d.
Proof.
  revert d. induction posts as [|post rest IH]; intros d; [reflexivity|].
  destruct post; simpl; auto.
Qed.
End phrase_counts.

(** C2. [detect_repeated_phrases] returns, each once, exactly the normalized
    keys of the corpus whose frequency over the string entries is strictly
    greater than [repetition_threshold]: frequency equal to the threshold is
    excluded, threshold + 1 is included; entries that are not strings count
    for no key; ["Hello!!"] and ["hello"] have the same key. *)
Theorem detect_repeated_phrases_exact
  (repetition_threshold : Z) (cleaning : char -> bool) (posts : list value) :
  exists out,
    detect_repeated_phrases repetition_threshold cleaning (VList posts) = Ok out
    /\ NoDup out
    /\ (forall key,
          In key out <->
          (0 < frequency cleaning key posts)%Z
          /\ (repetition_threshold < frequency cleaning key posts)%Z)
    /\ (forall key,
          frequency cleaning key posts = repetition_threshold ->
          ~ In key out)
    /\ (forall key,
          (0 < frequency cleaning key posts)%Z ->
          frequency cleaning key posts = (repetition_threshold + 1)%Z ->
          In key out)
    /\ detect_repeated_phrases repetition_threshold cleaning
         (VList (map VStr (string_entries posts))) = Ok out
    /\ normalized_key default_cleaning "Hello!!"
       = normalized_key default_cleaning "hello".
Proof.
  eexists. split; [reflexivity|].
  split; [apply detect_repeated_phrases_NoDup|].
  split; [apply detect_repeated_phrases_In|].
  split; [|split; [|split]].
  - intros key E. rewrite detect_repeated_phrases_In. lia.
  - intros key H0 E. rewrite detect_repeated_phrases_In. lia.
  - simpl. rewrite count_phrases_string_entries. reflexivity.
  - reflexivity.
Qed.

(** *** Posts that normalize to the empty key *)

(** On Latin-1 lowercasing keeps removed characters removed. *)
Lemma lower_char_blank (c : ascii) :
  default_cleaning (Latin1 c) || is_space (Latin1 c) = true ->
  default_cleaning (lower_char (Latin1 c))
  || is_space (lower_char (Latin1 c)) = true.
Proof.
  destruct c as [[] [] [] [] [] [] [] []]; intros H; vm_compute in H |- *;
    congruence.
Qed.

Lemma default_cleaning_keeps_space (c : char) :
  default_cleaning c || is_space c = true ->
  default_cleaning c = false -> is_space c = true.
Proof. intros H E. rewrite E in H. exact H. Qed.

Lemma lstrip_spaces (s : str) :
  forallb is_space (chars s) = true -> lstrip s = EmptyStr.
Proof.
  induction s as [|c s IH]; simpl; [reflexivity|].
  intros H. apply andb_true_iff in H. destruct H as [Hc Hs].
  rewrite Hc. auto.
Qed.

Lemma re_sub_blank (s : str) :
  forallb (fun c => default_cleaning c || is_space c)
    (chars s) = true ->
  forallb is_space (chars (re_sub default_cleaning s)) = true.
Proof.
  induction s as [|c s IH]; simpl; [reflexivity|].
  intros H. apply andb_true_iff in H. destruct H as [Hc Hs].
  pose proof (default_cleaning_keeps_space c Hc) as Hsp.
  destruct (default_cleaning c); simpl; auto.
  rewrite (Hsp eq_refl). auto.
Qed.

Lemma blank_cleaned (post : str) :
  lowered_blank post = true -> cleaned default_cleaning post = EmptyStr.
Proof.
  intros H. unfold cleaned, strip.
  rewrite lstrip_spaces; [reflexivity|].
  apply re_sub_blank. rewrite lower_list. exact H.
Qed.

Lemma blank_frequency (posts : list value) :
  (Z.of_nat (List.length (filter lowered_blank (string_entries posts)))
   <= frequency default_cleaning EmptyStr posts)%Z.
Proof.
  unfold frequency. apply inj_le.
  induction (string_entries posts) as [|s l IH]; simpl; [lia|].
  destruct (lowered_blank s) eqn:E.
  - rewrite <- cleaned_normalized_key, (blank_cleaned s E). simpl.
    destruct (str_dec EmptyStr EmptyStr); [lia | contradiction].
  - destruct (str_dec (normalized_key default_cleaning s) EmptyStr); lia.
Qed.

(** C10. Posts that, once lowercased, are made only of white space and of
    characters the default rule removes all have the empty string as their
    key, and when the corpus has such posts, more of them than
    [repetition_threshold], the empty string is in the output. *)
Theorem blank_posts_share_empty_key
  (repetition_threshold : Z) (posts : list value)
  (Hsome : filter lowered_blank (string_entries posts) <> [])
  (Hmany : (repetition_threshold
            < Z.of_nat
                (List.length
                   (filter lowered_blank (string_entries posts))))%Z) :
  (forall post, In post (filter lowered_blank (string_entries posts)) ->
                normalized_key default_cleaning post = EmptyStr)
  /\ exists out,
       detect_repeated_phrases repetition_threshold default_cleaning
         (VList posts) = Ok out
       /\ In EmptyStr out.
Proof.
  split.
  - intros post Hin. apply filter_In in Hin.
    rewrite <- cleaned_normalized_key. apply blank_cleaned, Hin.
  - eexists. split; [reflexivity|].
    apply detect_repeated_phrases_In.
    pose proof (blank_frequency posts).
    destruct (filter lowered_blank (string_entries posts)); [contradiction|].
    simpl List.length in *. lia.
Qed.

Lemma blank_posts_share_empty_key_witness :
  (forall post,
      In post (filter lowered_blank
                 (string_entries [VStr "!!!"; VStr "   "; VStr "ok"])) ->
      normalized_key default_cleaning post = EmptyStr)
  /\ exists out,
       detect_repeated_phrases 1 default_cleaning
         (VList [VStr "!!!"; VStr "   "; VStr "ok"]) = Ok out
       /\ In EmptyStr out.
Proof.
  apply (blank_posts_share_empty_key 1 [VStr "!!!"; VStr "   "; VStr "ok"]).
  - vm_compute. discriminate.
  - vm_compute. reflexivity.
Defined.

(** Without the lowercasing the statement fails: the Kelvin sign, U+212A, is
    removed by the default rule, but line 93 lowercases the post first and
    its lowercase is the letter k, which the rule keeps.  The post made of
    that one character has the key [k]; in the corpus that holds it alone,
    with the threshold 0, the posts made only of removed characters are more
    than the threshold and the output is [k], without the empty string. *)
Lemma blank_posts_share_empty_key_counterexample :
  blank (Str U212A EmptyStr) = true
  /\ normalized_key default_cleaning (Str U212A EmptyStr) = "k"%str
  /\ (0 < Z.of_nat
            (List.length
               (filter blank (string_entries [VStr (Str U212A EmptyStr)]))))%Z
  /\ detect_repeated_phrases 0 default_cleaning
       (VList [VStr (Str U212A EmptyStr)]) = Ok ["k"%str].
Proof.
  split; [reflexivity|]. split; [reflexivity|].
  split; [reflexivity | reflexivity].
Qed.

(** ** Sentiment *)

Lemma score_posts_scores (polarity : str -> result Q) (posts : list value)
  (sentiments : list Q) :
  score_posts polarity posts sentiments = sentiments ++ scores polarity posts.
Proof.
  revert sentiments. induction posts as [|post rest IH]; intros acc; simpl.
  - rewrite app_nil_r. reflexivity.
  - destruct post; simpl; auto.
    destruct (polarity s); simpl; auto.
    rewrite IH, <- app_assoc. reflexivity.
Qed.

Lemma fold_left_Qplus (l : list Q) (a : Q) :
  (fold_left Qplus l a == a + fold_right Qplus 0 l)%Q.
Proof.
  revert a. induction l as [|x l IH]; intros a; simpl.
  - ring.
  - rewrite IH. ring.
Qed.

Lemma sum_mean (l : list Q) : (sum l / len l == arithmetic_mean l)%Q.
Proof.
  unfold sum, arithmetic_mean. rewrite fold_left_Qplus. 
  apply Qdiv_comp; [ring | reflexivity].
Qed.

Lemma scores_unscored (polarity : str -> result Q) (posts : list value) :
  Forall (unscored polarity) posts -> scores polarity posts = [].
Proof.
  induction 1 as [|post rest Hp _ IH]; [reflexivity|].
  simpl. rewrite IH, app_nil_r.
  destruct post; auto. destruct Hp as [e ->]. reflexivity.
Qed.

Lemma sentiment_analysis_scores
  (polarity : str -> result Q) (posts : list value) :
  exists r,
    sentiment_analysis polarity (VList posts) = Ok r
    /\ (scores polarity posts <> [] ->
        (r == arithmetic_mean (scores polarity posts))%Q)
    /\ (scores polarity posts = [] -> r = 0%Q).
Proof.
  destruct posts as [|post rest].
  - exists 0%Q. simpl. split; [reflexivity|]. split; [|reflexivity].
    intros H. contradiction.
  - unfold sentiment_analysis.
    rewrite score_posts_scores. cbn [app].
    destruct (scores polarity (post :: rest)) as [|p l].
    + exists 0%Q. split; [reflexivity|]. split; [|reflexivity].
      intros H. contradiction.
    + eexists. split; [reflexivity|]. split.
      * intros _. apply sum_mean.
      * discriminate.
Qed.

(** C4. [sentiment_analysis] returns the arithmetic mean of the scores of the
    string posts whose scoring succeeds, and 0 when there is no score: for
    the empty corpus, and for a corpus none of whose entries yields one. *)
Theorem sentiment_analysis_mean
  (polarity : str -> result Q) (posts : list value) :
  exists r,
    sentiment_analysis polarity (VList posts) = Ok r
    /\ (scores polarity posts <> [] ->
        (r == arithmetic_mean (scores polarity posts))%Q)
    /\ (scores polarity posts = [] -> r = 0%Q)
    /\ (posts = [] -> r = 0%Q)
    /\ (Forall (unscored polarity) posts -> r = 0%Q).
Proof.
  destruct (sentiment_analysis_scores polarity posts)
    as (r & Hr & Hmean & Hzero).
  exists r. repeat split; auto.
  - intros ->. apply Hzero. reflexivity.
  - intros H. apply Hzero, scores_unscored, H.
Qed.

(** ** Double precision *)

Section double_precision.
Local Open Scope Q_scope.

Lemma pow2_pos (e : Z) : 0 < pow2 e.
Proof. apply Qpower_0_lt. reflexivity. Qed.

Lemma pow2_add (a b : Z) : pow2 (a + b) == pow2 a * pow2 b.
Proof. apply Qpower_plus. discriminate. Qed.

Lemma pow2_le (a b : Z) : (a <= b)%Z -> pow2 a <= pow2 b.
Proof. intros H. apply Qpower_le_compat_l; [exact H | discriminate]. Qed.

Lemma pow2_lt (a b : Z) : (a < b)%Z -> pow2 a < pow2 b.
Proof. intros H. apply Qpower_lt_compat_l; [exact H | reflexivity]. Qed.

Lemma pow2_inject (e : Z) : (0 <= e)%Z -> pow2 e == inject_Z (2 ^ e).
Proof. intros H. symmetry. apply (Zpower_Qpower 2 e H). Qed.


Lemma ilog2_spec (a : Q) :
  0 < a -> pow2 (ilog2 a) <= a /\ a < pow2 (ilog2 a + 1).
Proof.
  intros Ha. destruct a as [n d].
  assert (Hn : (0 < n)%Z).
  { unfold Qlt in Ha. simpl in Ha. lia. }
  unfold ilog2. cbn [Qnum Qden].
  set (ln := Z.log2 n). set (ld := Z.log2 (Z.pos d)).
  assert (Hln : (2 ^ ln <= n < 2 ^ (ln + 1))%Z).
  { unfold ln. rewrite Z.add_1_r. apply Z.log2_spec. exact Hn. }
  assert (Hld : (2 ^ ld <= Z.pos d < 2 ^ (ld + 1))%Z).
  { unfold ld. rewrite Z.add_1_r. apply Z.log2_spec. reflexivity. }
  assert (H0n : (0 <= ln)%Z) by apply Z.log2_nonneg.
  assert (H0d : (0 <= ld)%Z) by apply Z.log2_nonneg.
  assert (Hq : n # d == inject_Z n / inject_Z (Z.pos d)) by apply Qmake_Qdiv.
  assert (Hdpos : 0 < inject_Z (Z.pos d)) by reflexivity.
  assert (Hlow : pow2 (ln - ld - 1) <= n # d).
  { rewrite Hq. apply Qle_shift_div_l; [exact Hdpos |].
    replace (ln - ld - 1)%Z with (ln + - (ld + 1))%Z by lia.
    rewrite pow2_add. unfold pow2 at 2. rewrite Qpower_opp.
    fold (pow2 (ld + 1)).
    assert (Hp := pow2_pos (ld + 1)).
    assert (E1 : pow2 ln == inject_Z (2 ^ ln)) by (apply pow2_inject; lia).
    assert (E2 : pow2 (ld + 1) == inject_Z (2 ^ (ld + 1))) by (apply pow2_inject; lia).
    assert (I1 : inject_Z (2 ^ ln) <= inject_Z n) by (rewrite <- Zle_Qle; lia).
    assert (I2 : inject_Z (Z.pos d) <= inject_Z (2 ^ (ld + 1))) by (rewrite <- Zle_Qle; lia).
    rewrite <- E1 in I1. rewrite <- E2 in I2.
    setoid_replace (pow2 ln * / pow2 (ld + 1) * inject_Z (Z.pos d))
      with (pow2 ln * (inject_Z (Z.pos d) / pow2 (ld + 1))) by (field; lra).
    assert (I3 : inject_Z (Z.pos d) / pow2 (ld + 1) <= 1).
    { apply Qle_shift_div_r; [exact Hp | lra]. }
    assert (I4 : 0 <= inject_Z (Z.pos d) / pow2 (ld + 1)).
    { apply Qle_shift_div_l; [exact Hp | lra]. }
    assert (Hpl := pow2_pos ln).
    apply Qle_trans with (pow2 ln * 1); [| lra].
    apply Qmult_le_l; [exact Hpl | exact I3]. }
  assert (Hup : n # d < pow2 (ln - ld + 1)).
  { rewrite Hq. apply Qlt_shift_div_r; [exact Hdpos |].
    replace (ln - ld + 1)%Z with ((ln + 1) + - ld)%Z by lia.
    rewrite pow2_add. unfold pow2 at 2. rewrite Qpower_opp.
    fold (pow2 ld).
    assert (Hp := pow2_pos ld).
    assert (E1 : pow2 (ln + 1) == inject_Z (2 ^ (ln + 1))) by (apply pow2_inject; lia).
    assert (E2 : pow2 ld == inject_Z (2 ^ ld)) by (apply pow2_inject; lia).
    assert (I1 : inject_Z n < inject_Z (2 ^ (ln + 1))) by (rewrite <- Zlt_Qlt; lia).
    assert (I2 : inject_Z (2 ^ ld) <= inject_Z (Z.pos d)) by (rewrite <- Zle_Qle; lia).
    rewrite <- E1 in I1. rewrite <- E2 in I2.
    setoid_replace (pow2 (ln + 1) * / pow2 ld * inject_Z (Z.pos d))
      with (pow2 (ln + 1) * (inject_Z (Z.pos d) / pow2 ld)) by (field; lra).
    assert (I3 : 1 <= inject_Z (Z.pos d) / pow2 ld).
    { apply Qle_shift_div_l; [exact Hp | lra]. }
    assert (Hpl := pow2_pos (ln + 1)).
    apply Qlt_le_trans with (pow2 (ln + 1) * 1); [lra |].
    apply Qmult_le_l; [exact Hpl | exact I3]. }
  destruct (Qle_bool (pow2 (ln - ld)) (n # d)) eqn:T.
  - apply Qle_bool_iff in T. split; assumption.
  - assert (~ pow2 (ln - ld) <= n # d).
    { intros C. apply Qle_bool_iff in C. congruence. }
    replace (ln - ld - 1 + 1)%Z with (ln - ld)%Z by lia.
    split; [exact Hlow | apply Qnot_le_lt; assumption].
Qed.

Lemma round_half_even_bounds (q : Q) :
  (Qfloor q <= round_half_even q <= Qfloor q + 1)%Z.
Proof.
  unfold round_half_even. cbv zeta.
  destruct (q - inject_Z (Qfloor q) ?= 1 # 2); [destruct (Z.even (Qfloor q)) | |]; lia.
Qed.


(** The shape of a rounded number: an integer of at most 53 bits times a
    power of two, with full 53 bits above the subnormal range. *)
Lemma double_pos_shape (a : Q) :
  0 < a ->
  exists m p : Z,
    double_pos a = inject_Z m * pow2 p /\
    (0 <= m <= 2 ^ 53)%Z /\ (-1074 <= p)%Z /\
    ((m < 2 ^ 52)%Z -> p = (-1074)%Z).
Proof.
  intros Ha. destruct (ilog2_spec a Ha) as [L U].
  set (e := ilog2 a) in *.
  exists (round_half_even (a / pow2 (Z.max (e - 52) (-1074)))),
    (Z.max (e - 52) (-1074)).
  set (p := Z.max (e - 52) (-1074)).
  assert (Hp := pow2_pos p).
  assert (B := round_half_even_bounds (a / pow2 p)).
  assert (X0 : 0 <= a / pow2 p).
  { apply Qle_shift_div_l; [exact Hp | lra]. }
  assert (X1 : a / pow2 p < inject_Z (2 ^ 53)).
  { apply Qlt_shift_div_r; [exact Hp |].
    rewrite <- pow2_inject by lia. rewrite <- pow2_add.
    apply Qlt_le_trans with (pow2 (e + 1)); [exact U |].
    apply pow2_le. unfold p. lia. }
  assert (F0 : (0 <= Qfloor (a / pow2 p))%Z).
  { rewrite <- (Qfloor_Z 0). apply Qfloor_resp_le. exact X0. }
  assert (F1 : (Qfloor (a / pow2 p) < 2 ^ 53)%Z).
  { rewrite Zlt_Qlt. apply Qle_lt_trans with (a / pow2 p); [apply Qfloor_le | exact X1]. }
  split; [reflexivity |]. split; [lia |]. split; [unfold p; lia |].
  intros Hm.
  destruct (Z.eq_dec p (-1074)) as [E | N]; [exact E | exfalso].
  assert (Ep : p = (e - 52)%Z) by (unfold p in *; lia).
  assert (X2 : inject_Z (2 ^ 52) <= a / pow2 p).
  { apply Qle_shift_div_l; [exact Hp |].
    rewrite <- pow2_inject by lia. rewrite <- pow2_add.
    replace (52 + p)%Z with e by lia. exact L. }
  assert (F2 : (2 ^ 52 <= Qfloor (a / pow2 p))%Z).
  { rewrite <- (Qfloor_Z (2 ^ 52)). apply Qfloor_resp_le. exact X2. }
  lia.
Qed.


Lemma double_pos_nonneg (a : Q) : 0 < a -> 0 <= double_pos a.
Proof.
  intros Ha. destruct (double_pos_shape a Ha) as (m & p & E & Hm & _).
  rewrite E. apply Qmult_le_0_compat.
  - change (inject_Z 0 <= inject_Z m). rewrite <- Zle_Qle. lia.
  - apply Qlt_le_weak, pow2_pos.
Qed.


(** Rounding respects equality of rationals, keeps the sign, and leaves a
    float as it is. *)


Lemma double_nonneg (q : Q) : 0 <= q -> 0 <= double q.
Proof.
  intros H. unfold double.
  destruct (Qcompare_spec (Qred q) 0) as [E | L | G].
  - apply Qle_refl.
  - exfalso. rewrite Qred_correct in L. lra.
  - apply double_pos_nonneg. exact G.
Qed.

End double_precision.

(** ** Posting intervals *)

Lemma Qltb_lt (x y : Q) : Qltb x y = true <-> (x < y)%Q.
Proof.
  unfold Qltb. rewrite negb_true_iff. split.
  - intros H. apply Qnot_le_lt. intros Hle.
    apply Qle_bool_iff in Hle. congruence.
  - intros H. destruct (Qle_bool y x) eqn:E; [|reflexivity].
    apply Qle_bool_iff in E. exfalso. exact (Qlt_not_le _ _ H E).
Qed.

Lemma intervals_of_gaps (l : list datetime) : intervals_of l = gaps l.
Proof.
  unfold gaps. induction l as [|a l IH]; [reflexivity|].
  destruct l as [|b r]; [reflexivity|].
  change (intervals_of (a :: b :: r))
    with (total_seconds (micros b - micros a) :: intervals_of (b :: r)).
  rewrite IH. reflexivity.
Qed.

Lemma gaps_length (l : list datetime) :
  List.length (gaps l) = pred (List.length l).
Proof.
  unfold gaps. rewrite length_map, length_combine.
  destruct l as [|a l]; [reflexivity|]. cbn [tl List.length pred]. lia.
Qed.

Lemma sort_Permutation (l : list datetime) :
  Permutation (DatetimeSort.sort l) l.
Proof. symmetry. apply DatetimeSort.Permuted_sort. Qed.

Lemma sort_ascending (l : list datetime) : ascending (DatetimeSort.sort l).
Proof.
  assert (H : StronglySorted
                (fun x y => is_true (DatetimeOrder.leb x y))
                (DatetimeSort.sort l)).
  { apply DatetimeSort.StronglySorted_sort.
    intros x y z Hxy Hyz. unfold is_true, DatetimeOrder.leb in *.
    rewrite Z.leb_le in *. lia. }
  unfold ascending.
  induction H as [|a m Hm IH Ha]; constructor; auto.
  rewrite Forall_forall in *. intros x Hx. apply Z.leb_le, Ha, Hx.
Qed.

Lemma forallb_Permutation {A : Type} (f : A -> bool) (l l' : list A) :
  Permutation l l' -> forallb f l = forallb f l'.
Proof.
  induction 1 as [|x l l' _ IH|x y l|l l' l'' _ IH1 _ IH2]; simpl.
  - reflexivity.
  - rewrite IH. reflexivity.
  - destruct (f x), (f y); reflexivity.
  - congruence.
Qed.

Lemma comparable_Permutation (l l' : list datetime) :
  Permutation l l' -> comparable l = comparable l'.
Proof.
  intros H. unfold comparable.
  rewrite (forallb_Permutation aware l l' H).
  rewrite (forallb_Permutation _ l l' H). reflexivity.
Qed.

(** Datetimes of one kind are told apart by their instants. *)
Lemma comparable_same (l : list datetime) (a b : datetime) :
  comparable l = true -> In a l -> In b l -> micros a = micros b -> a = b.
Proof.
  unfold comparable. intros H Ha Hb E.
  assert (Hk : aware a = aware b).
  { apply orb_true_iff in H. destruct H as [H|H];
      rewrite forallb_forall in H;
      pose proof (H a Ha) as Ka; pose proof (H b Hb) as Kb.
    - congruence.
    - destruct (aware a), (aware b); auto; discriminate. }
  destruct a as [ma ka], b as [mb kb]. simpl in *. congruence.
Qed.

(** An ascending arrangement of datetimes of one kind is unique. *)
Lemma ascending_unique (l l1 l2 : list datetime) :
  comparable l = true -> incl l1 l ->
  Permutation l1 l2 -> ascending l1 -> ascending l2 -> l1 = l2.
Proof.
  intros Hc. revert l2. induction l1 as [|a l1 IH]; intros l2 Hi Hp H1 H2.
  - apply Permutation_nil in Hp. auto.
  - destruct l2 as [|b l2].
    + symmetry in Hp. apply Permutation_nil in Hp. discriminate.
    + inversion H1 as [|? ? S1 F1]; inversion H2 as [|? ? S2 F2]; subst.
      rewrite Forall_forall in F1, F2.
      assert (Ha : In a (b :: l2))
        by (apply (Permutation_in _ Hp); left; reflexivity).
      assert (Hb : In b (a :: l1))
        by (apply (Permutation_in _ (Permutation_sym Hp)); left; reflexivity).
      assert (a = b).
      { apply (comparable_same l a b Hc).
        - apply Hi. left. reflexivity.
        - apply Hi. exact Hb.
        - destruct Ha as [->|Ha]; [reflexivity|].
          destruct Hb as [->|Hb]; [reflexivity|].
          specialize (F1 _ Hb). specialize (F2 _ Ha). lia. }
      subst b. f_equal. apply IH; auto.
      * intros x Hx. apply Hi. right. exact Hx.
      * apply Permutation_cons_inv in Hp. exact Hp.
Qed.

Lemma sorted_unique (l instants : list datetime) :
  comparable l = true ->
  Permutation instants l -> ascending instants ->
  sorted l = Ok instants.
Proof.
  intros Hc Hp Hs. unfold sorted. rewrite Hc. f_equal.
  apply (ascending_unique l); auto using sort_ascending.
  - intros x Hx. apply (Permutation_in _ (sort_Permutation l)). exact Hx.
  - rewrite sort_Permutation. symmetry. exact Hp.
Qed.

Lemma sorted_Ok (l ts : list datetime) :
  sorted l = Ok ts ->
  comparable l = true /\ Permutation ts l /\ ascending ts.
Proof.
  unfold sorted. destruct (comparable l); [|discriminate].
  intros E. injection E as <-.
  auto using sort_Permutation, sort_ascending.
Qed.

Lemma map_VStr_inj (l1 l2 : list str) :
  map VStr l1 = map VStr l2 -> l1 = l2.
Proof.
  revert l2. induction l1 as [|a l1 IH]; intros [|b l2] E;
    try discriminate; [reflexivity|].
  injection E as -> E. f_equal. auto.
Qed.

Lemma check_strings_Ok (strs : list str) :
  check_strings (map VStr strs) = Ok tt.
Proof. induction strs; simpl; auto. Qed.

Lemma check_strings_inv (l : list value) :
  (exists strs, l = map VStr strs /\ check_strings l = Ok tt)
  \/ ((forall strs, l <> map VStr strs) /\ check_strings l = Raise TypeError).
Proof.
  induction l as [|v l IH].
  - left. exists []. auto.
  - destruct v as [|n|s|m|items];
      try (right; split; [intros [|? ?]; discriminate | reflexivity]).
    destruct IH as [(strs & -> & H)|[Hne H]].
    + left. exists (s :: strs). auto.
    + right. split; [|exact H].
      intros [|s' strs] E; [discriminate|].
      injection E as _ E. exact (Hne _ E).
Qed.

Section parsing.
Variable parse : str -> result datetime.

Lemma parse_timestamps_Ok (strs : list str) (acc : list datetime) :
  ~ gives_up parse strs ->
  parse_timestamps parse (map VStr strs) acc
  = Ok (acc ++ parsed_instants parse strs).
Proof.
  revert acc. induction strs as [|ts strs IH]; intros acc Hg; simpl.
  - rewrite app_nil_r. reflexivity.
  - assert (Hg' : ~ gives_up parse strs).
    { intros (x & e & Hx & He & Hv). apply Hg. exists x, e. simpl. auto. }
    destruct (parse ts) as [t|e] eqn:E.
    + rewrite IH by exact Hg'. rewrite <- app_assoc. reflexivity.
    + destruct (isinstance_ValueError e) eqn:Ev.
      * rewrite IH by exact Hg'. reflexivity.
      * exfalso. apply Hg. exists ts, e. simpl. auto.
Qed.

Lemma parse_timestamps_Raise (strs : list str) (acc : list datetime) :
  gives_up parse strs ->
  exists e, parse_timestamps parse (map VStr strs) acc = Raise e.
Proof.
  revert acc. induction strs as [|ts strs IH]; intros acc Hg.
  - destruct Hg as (x & e & [] & _).
  - simpl. destruct (parse ts) as [t|e] eqn:E.
    + apply IH. destruct Hg as (x & e & [->|Hx] & He & Hv).
      * congruence.
      * exists x, e. auto.
    + destruct (isinstance_ValueError e) eqn:Ev; [|eauto].
      apply IH. destruct Hg as (x & e' & [->|Hx] & He & Hv).
      * congruence.
      * exists x, e'. auto.
Qed.

Lemma gives_up_dec (strs : list str) :
  gives_up parse strs \/ ~ gives_up parse strs.
Proof.
  induction strs as [|ts strs [IH|IH]].
  - right. intros (x & e & [] & _).
  - left. destruct IH as (x & e & Hx & H). exists x, e. simpl. tauto.
  - destruct (parse ts) as [t|e] eqn:E.
    + right. intros (x & e & [->|Hx] & He & Hv); [congruence|].
      apply IH. exists x, e. auto.
    + destruct (isinstance_ValueError e) eqn:Ev.
      * right. intros (x & e' & [->|Hx] & He & Hv); [congruence|].
        apply IH. exists x, e'. auto.
      * left. exists ts, e. simpl. auto.
Qed.
End parsing.

Lemma add_once_In (a x : value) (s : list value) :
  In x (add_once a s) <-> In x s \/ x = a.
Proof.
  unfold add_once. destruct (contains s a) eqn:E.
  - apply contains_In in E. split; [auto | intros [H| ->]; auto].
  - rewrite in_app_iff. simpl. intuition.
Qed.

Lemma add_once_idem (a : value) (s : list value) :
  add_once a (add_once a s) = add_once a s.
Proof.
  unfold add_once at 1.
  assert (H : contains (add_once a s) a = true)
    by (apply contains_In, add_once_In; auto).
  rewrite H. reflexivity.
Qed.

Lemma add_once_NoDup (a : value) (s : list value) :
  NoDup s -> NoDup (add_once a s).
Proof.
  intros H. unfold add_once. destruct (contains s a) eqn:E; [exact H|].
  assert (Hn : ~ In a s) by (rewrite <- contains_In; congruence).
  apply NoDup_rev in H. rewrite <- (rev_involutive (s ++ [a])).
  apply NoDup_rev. rewrite rev_app_distr. simpl.
  constructor; [rewrite <- in_rev; exact Hn | exact H].
Qed.

Section detector.
Variable parse : str -> result datetime.
Variable stdev : list Q -> result Q.
Variable interval_threshold outlier_threshold_stddev : Q.

Local Abbreviation apply_rules_ :=
  (apply_rules stdev interval_threshold outlier_threshold_stddev).
Local Abbreviation visit_ :=
  (visit parse stdev interval_threshold outlier_threshold_stddev).
Local Abbreviation rule_A_ := (rule_A interval_threshold).
Local Abbreviation rule_B_ :=
  (rule_B stdev interval_threshold outlier_threshold_stddev).
Local Abbreviation suspicious_ :=
  (suspicious parse stdev interval_threshold outlier_threshold_stddev).

Lemma for_each_flag (test : Q -> bool) (a : value) (l : list Q)
  (s : list value) :
  for_each l (fun g => if test g then flag a else ret tt) s
  = (Ok tt, if existsb test l then add_once a s else s).
Proof.
  revert s. induction l as [|g l IH]; intros s; [reflexivity|].
  simpl. unfold bind. destruct (test g); simpl.
  - unfold flag at 1. fold (add_once a s). rewrite IH.
    rewrite add_once_idem. destruct (existsb test l); reflexivity.
  - unfold ret at 1. apply IH.
Qed.

Lemma rule_A_iff (gaps : list Q) :
  Qltb (float_div (float_sum gaps) (len gaps)) interval_threshold = true
  <-> rule_A_ gaps.
Proof.
  unfold rule_A, mean_gap. rewrite Qltb_lt. reflexivity.
Qed.

Lemma rule_B_iff (gaps : list Q) (stddev : Q) :
  stdev gaps = Ok stddev ->
  (1 <? List.length gaps)%nat = true ->
  existsb
    (fun interval =>
       Qltb interval interval_threshold
       && Qltb interval
            (float_sub (float_div (float_sum gaps) (len gaps))
               (float_mul outlier_threshold_stddev stddev)))
    gaps = true
  <-> rule_B_ gaps.
Proof.
  intros Hsd Hlen. apply Nat.ltb_lt in Hlen.
  unfold rule_B, mean_gap. rewrite existsb_exists. split.
  - intros (g & Hg & Ht). apply andb_true_iff in Ht.
    rewrite !Qltb_lt in Ht.
    split; [lia|]. exists stddev. split; [exact Hsd|]. exists g. tauto.
  - intros (_ & sd & Hsd' & g & Hg & H1 & H2).
    assert (sd = stddev) by congruence. subst sd.
    exists g. split; [exact Hg|]. apply andb_true_iff.
    rewrite !Qltb_lt. tauto.
Qed.

Lemma apply_rules_spec (account : value) (gaps : list Q) (s : list value) :
  gaps <> [] ->
  exists (r : result unit) (b : bool),
    apply_rules_ account gaps s = (r, if b then add_once account s else s)
    /\ (b = true <-> rule_A_ gaps \/ rule_B_ gaps).
Proof.
  intros Hne. destruct gaps as [|g0 gs]; [contradiction|]. clear Hne.
  unfold apply_rules. cbv beta iota.
  generalize (g0 :: gs). clear g0 gs. intros gaps.
  assert (HB0 : (1 <? List.length gaps)%nat = false -> ~ rule_B_ gaps).
  { intros H [Hl _]. apply Nat.ltb_ge in H. lia. }
  assert (HB1 : forall e, stdev gaps = Raise e -> ~ rule_B_ gaps).
  { intros e H (_ & sd & Hsd & _). congruence. }
  unfold bind, lift.
  destruct (Qltb (float_div (float_sum gaps) (len gaps)) interval_threshold)
    eqn:EA.
  - (* rule A holds *)
    apply rule_A_iff in EA.
    unfold flag at 1. fold (add_once account s).
    destruct (1 <? List.length gaps)%nat eqn:El.
    + destruct (stdev gaps) as [sd|e] eqn:Esd.
      * rewrite for_each_flag, add_once_idem.
        exists (Ok tt), true. split.
        -- destruct (existsb _ gaps); reflexivity.
        -- tauto.
      * exists (Raise e), true. split; [reflexivity | tauto].
    + exists (Ok tt), true. split; [reflexivity | tauto].
  - (* rule A fails *)
    assert (HnA : ~ rule_A_ gaps) by (rewrite <- rule_A_iff; congruence).
    unfold ret at 1.
    destruct (1 <? List.length gaps)%nat eqn:El.
    + destruct (stdev gaps) as [sd|e] eqn:Esd.
      * rewrite for_each_flag.
        exists (Ok tt). eexists. split; [reflexivity|].
        rewrite (rule_B_iff gaps sd Esd El). tauto.
      * exists (Raise e), false. split; [reflexivity|].
        split; [discriminate|]. specialize (HB1 e eq_refl). tauto.
    + exists (Ok tt), false. split; [reflexivity|].
      split; [discriminate|]. specialize (HB0 eq_refl). tauto.
Qed.

(** What one iteration of the loop does to [suspicious_accounts]. *)
Lemma visit_spec (account timestamps : value) (s : list value) :
  exists b : bool,
    visit_ (account, timestamps) s
    = (Ok tt, if b then add_once account s else s)
    /\ (b = true <-> suspicious_ timestamps).
Proof.
  assert (Hno : ~ suspicious_ timestamps ->
                visit_ (account, timestamps) s = (Ok tt, s) ->
                exists b : bool,
                  visit_ (account, timestamps) s
                  = (Ok tt, if b then add_once account s else s)
                  /\ (b = true <-> suspicious_ timestamps)).
  { intros Hn E. exists false. split; [exact E|].
    split; [discriminate | tauto]. }
  destruct timestamps as [|n|str|l|items];
    try (apply Hno;
         [ intros (strs & ins & E & _); discriminate E
         | unfold visit; simpl; try destruct (negb _); reflexivity ]).
  destruct l as [|v l'].
  { apply Hno; [|reflexivity].
    intros (strs & ins & E & _ & _ & Hp & _ & Hlen & _).
    destruct strs; [|discriminate]. simpl in Hp.
    apply Permutation_length in Hp. simpl in Hp. lia. }
  clear Hno. set (l := v :: l') in *.
  unfold visit. change (truthy (VList l)) with true. cbn [negb].
  unfold try_except, try_body, bind, lift, ret.
  destruct (check_strings_inv l) as [(strs & Hl & Hc)|[Hl Hc]]; rewrite Hc.
  2:{ exists false. split; [reflexivity|]. split; [discriminate|].
      intros (strs & ins & E & _). injection E as E.
      exfalso. exact (Hl _ E). }
  rewrite Hl.
  destruct (gives_up_dec parse strs) as [Hg|Hg].
  { destruct (parse_timestamps_Raise parse strs [] Hg) as [e He].
    rewrite He. exists false. split; [reflexivity|].
    split; [discriminate|].
    intros (strs' & ins & E & Hg' & _). exfalso. apply Hg'.
    injection E as E. apply map_VStr_inj in E. subst. exact Hg. }
  rewrite (parse_timestamps_Ok parse strs [] Hg). cbn [app].
  set (ps := parsed_instants parse strs).
  assert (Hsusp : suspicious_ (VList (map VStr strs)) <->
                  2 <= List.length ps
                  /\ comparable ps = true
                  /\ (rule_A_ (gaps (DatetimeSort.sort ps))
                      \/ rule_B_ (gaps (DatetimeSort.sort ps)))).
  { split.
    - intros (strs' & ins & E & _ & Hk & Hp & Hs & Hlen & Hr).
      injection E as E. apply map_VStr_inj in E. subst strs'.
      fold ps in Hk, Hp.
      pose proof (sorted_unique _ _ Hk Hp Hs) as Es.
      unfold sorted in Es. rewrite Hk in Es. injection Es as Es.
      rewrite Es, <- (Permutation_length Hp). auto.
    - intros (Hlen & Hk & Hr).
      exists strs, (DatetimeSort.sort ps).
      split; [reflexivity|]. split; [exact Hg|]. split; [exact Hk|].
      split; [apply sort_Permutation|]. split; [apply sort_ascending|].
      split; [|exact Hr].
      rewrite (Permutation_length (sort_Permutation _)). exact Hlen. }
  destruct (List.length ps <? 2)%nat eqn:El.
  { apply Nat.ltb_lt in El. exists false. split; [reflexivity|].
    split; [discriminate|]. rewrite Hsusp. lia. }
  apply Nat.ltb_ge in El. unfold sorted.
  destruct (comparable ps) eqn:Ek.
  2:{ exists false. split; [reflexivity|]. split; [discriminate|].
      rewrite Hsusp. intros (_ & C & _). discriminate C. }
  rewrite intervals_of_gaps.
  destruct (apply_rules_spec account (gaps (DatetimeSort.sort ps)) s)
    as (r & b & Hr & Hb).
  { intros E. apply (f_equal (@List.length Q)) in E.
    rewrite gaps_length, (Permutation_length (sort_Permutation _)) in E.
    simpl in E. lia. }
  rewrite Hr.
  exists b. split; [destruct r as [[]|e]; reflexivity|].
  rewrite Hb, Hsusp. tauto.
Qed.
End detector.

Section detector_loop.
Variable parse : str -> result datetime.
Variable stdev : list Q -> result Q.
Variable interval_threshold outlier_threshold_stddev : Q.

Local Abbreviation visit_ :=
  (visit parse stdev interval_threshold outlier_threshold_stddev).
Local Abbreviation suspicious_ :=
  (suspicious parse stdev interval_threshold outlier_threshold_stddev).

(** The invariant of the loop over the items of [accounts_data]. *)
Lemma for_each_visit (items : list (value * value)) (s : list value) :
  exists s',
    for_each items visit_ s = (Ok tt, s')
    /\ (NoDup s -> NoDup s')
    /\ forall x,
        In x s' <->
        In x s \/ exists ts, In (x, ts) items /\ suspicious_ ts.
Proof.
  revert s. induction items as [|[account ts] items IH]; intros s.
  - exists s. split; [reflexivity|]. split; [auto|].
    intros x. split; [auto | intros [H|(t & [] & _)]; exact H].
  - destruct (visit_spec parse stdev interval_threshold
                outlier_threshold_stddev account ts s) as (b & Hv & Hb).
    cbn [for_each]. unfold bind. rewrite Hv.
    destruct (IH (if b then add_once account s else s))
      as (s' & Hs' & Hnd & Hin).
    exists s'. split; [exact Hs'|]. split.
    + intros H. apply Hnd. destruct b; auto using add_once_NoDup.
    + intros x. rewrite Hin. destruct b.
      * rewrite add_once_In. split.
        -- intros [[H| ->]|(t & Ht & Hsus)]; auto.
           ++ right. exists ts. split; [left; reflexivity | tauto].
           ++ right. exists t. split; [right; exact Ht | exact Hsus].
        -- intros [H|(t & [E|Ht] & Hsus)]; auto.
           ++ injection E as -> ->. auto.
           ++ right. exists t. auto.
      * split.
        -- intros [H|(t & Ht & Hsus)]; auto.
           right. exists t. split; [right; exact Ht | exact Hsus].
        -- intros [H|(t & [E|Ht] & Hsus)]; auto.
           ++ injection E as -> ->. apply Hb in Hsus. discriminate.
           ++ right. exists t. auto.
Qed.

Lemma for_each_visit_congr (x x' : value * value)
  (before after : list (value * value)) (s : list value) :
  (forall s, visit_ x s = visit_ x' s) ->
  for_each (before ++ x :: after) visit_ s
  = for_each (before ++ x' :: after) visit_ s.
Proof.
  intros H. revert s. induction before as [|y before IH]; intros s.
  - cbn [app for_each]. unfold bind. rewrite H. reflexivity.
  - cbn [app for_each]. unfold bind.
    destruct (visit_ y s) as [[u|e] s1]; [apply IH | reflexivity].
Qed.

Lemma suspicious_Permutation (l l' : list value) :
  Permutation l l' -> suspicious_ (VList l) -> suspicious_ (VList l').
Proof.
  intros Hp (strs & ins & E & Hg & Hk & Hins & Hs & Hlen & Hr).
  injection E as ->.
  apply Permutation_sym in Hp.
  destruct (Permutation_map_inv _ _ Hp) as (strs' & -> & Hp').
  assert (Hps : Permutation (parsed_instants parse strs)
                  (parsed_instants parse strs')).
  { unfold parsed_instants. apply Permutation_flat_map. exact Hp'. }
  exists strs', ins. repeat split; auto.
  - intros (x & e & Hx & H). apply Hg. exists x, e. split; [|exact H].
    apply (Permutation_in _ (Permutation_sym Hp')). exact Hx.
  - rewrite <- (comparable_Permutation _ _ Hps). exact Hk.
  - rewrite Hins. exact Hps.
Qed.

Lemma visit_Permutation (account : value) (l l' : list value)
  (s : list value) :
  Permutation l l' ->
  visit_ (account, VList l) s = visit_ (account, VList l') s.
Proof.
  intros Hp.
  destruct (visit_spec parse stdev interval_threshold
              outlier_threshold_stddev account (VList l) s)
    as (b & Hv & Hb).
  destruct (visit_spec parse stdev interval_threshold
              outlier_threshold_stddev account (VList l') s)
    as (b' & Hv' & Hb').
  rewrite Hv, Hv'.
  assert (b = b'); [|subst; reflexivity].
  assert (Hiff : suspicious_ (VList l) <-> suspicious_ (VList l')).
  { split; apply suspicious_Permutation; [|symmetry]; exact Hp. }
  destruct b, b'; auto.
  - symmetry. apply Hb', Hiff, Hb. reflexivity.
  - apply Hb, Hiff, Hb'. reflexivity.
Qed.
End detector_loop.

Lemma detect_abnormal_posting_members
  (parse : str -> result datetime) (stdev : list Q -> result Q)
  (interval_threshold outlier_threshold_stddev : Q)
  (items : list (value * value)) :
  exists out,
    detect_abnormal_posting parse stdev interval_threshold
      outlier_threshold_stddev (VDict items) = Ok out
    /\ forall account,
        In account out <->
        exists timestamps,
          In (account, timestamps) items
          /\ suspicious parse stdev interval_threshold
               outlier_threshold_stddev timestamps.
Proof.
  destruct (for_each_visit parse stdev interval_threshold
              outlier_threshold_stddev items []) as (s' & Hs' & _ & Hin).
  exists s'. split; [simpl; rewrite Hs'; reflexivity|].
  intros account. rewrite Hin. simpl. tauto.
Qed.



(** C9. The list returned by [detect_abnormal_posting] holds each account
    at most once, whichever rules the account satisfies. *)
Theorem detect_abnormal_posting_NoDup
  (parse : str -> result datetime) (stdev : list Q -> result Q)
  (interval_threshold outlier_threshold_stddev : Q)
  (items : list (value * value)) :
  exists out,
    detect_abnormal_posting parse stdev interval_threshold
      outlier_threshold_stddev (VDict items) = Ok out
    /\ NoDup out.
Proof.
  destruct (for_each_visit parse stdev interval_threshold
              outlier_threshold_stddev items []) as (s' & Hs' & Hnd & _).
  exists s'. split; [simpl; rewrite Hs'; reflexivity|].
  apply Hnd. constructor.
Qed.

(** C7. Replacing the timestamp list of an account by a permutation of it
    leaves the result of [detect_abnormal_posting] unchanged. *)
Theorem detect_abnormal_posting_order_invariant
  (parse : str -> result datetime) (stdev : list Q -> result Q)
  (interval_threshold outlier_threshold_stddev : Q)
  (before after : list (value * value)) (account : value)
  (timestamps timestamps' : list value)
  (Hperm : Permutation timestamps timestamps') :
  detect_abnormal_posting parse stdev interval_threshold
    outlier_threshold_stddev
    (VDict (before ++ (account, VList timestamps) :: after))
  = detect_abnormal_posting parse stdev interval_threshold
      outlier_threshold_stddev
      (VDict (before ++ (account, VList timestamps') :: after)).
Proof.
  simpl. f_equal. f_equal. apply for_each_visit_congr.
  intros s. apply visit_Permutation. exact Hperm.
Qed.

Lemma detect_abnormal_posting_order_invariant_witness :
  detect_abnormal_posting parse_clock stdev_floor 30 2
    (VDict ([(VStr "human", VList [VStr "10:00:00"; VStr "12:30:00"])]
            ++ (VStr "bot2",
                VList [VStr "11:59:50"; VStr "11:59:55"; VStr "12:00:02"])
            :: []))
  = detect_abnormal_posting parse_clock stdev_floor 30 2
      (VDict ([(VStr "human", VList [VStr "10:00:00"; VStr "12:30:00"])]
              ++ (VStr "bot2",
                  VList [VStr "11:59:55"; VStr "11:59:50"; VStr "12:00:02"])
              :: [])).
Proof.
  apply (detect_abnormal_posting_order_invariant parse_clock stdev_floor 30 2).
  apply perm_swap.
Defined.

(** C5. An input whose top-level container has the wrong type makes the
    analyzer return its zero value, the empty list or 0, and nothing is
    raised. *)
Theorem wrong_container_zero_value
  (parse : str -> result datetime) (stdev : list Q -> result Q)
  (interval_threshold outlier_threshold_stddev : Q)
  (repetition_threshold : Z) (cleaning : char -> bool)
  (polarity : str -> result Q)
  (nx : networkx) (cluster_threshold : Z) (input : value) :
  (is_dict input = false ->
   detect_abnormal_posting parse stdev interval_threshold
     outlier_threshold_stddev input = Ok []
   /\ analyze_network nx cluster_threshold input = Ok [])
  /\ (is_list input = false ->
      detect_repeated_phrases repetition_threshold cleaning input = Ok []
      /\ sentiment_analysis polarity input = Ok 0%Q).
Proof.
  destruct input; simpl; split; intros H; try discriminate H; auto.
Qed.

(** *** Accounts with exactly two parsed timestamps *)


Section double_mean.
Local Open Scope Q_scope.

End double_mean.


Section two_timestamps.
Variable parse : str -> result datetime.
Variable interval_threshold outlier_threshold_stddev : Q.
Variables (account : value) (timestamps : list value) (d1 d2 : datetime).
Hypothesis Hstrings : check_strings timestamps = Ok tt.
Hypothesis Hparsed : parse_timestamps parse timestamps [] = Ok [d1; d2].
Hypothesis Hkind : aware d1 = aware d2.




End two_timestamps.





(** ** Connectivity *)

Section connectivity.
Variable E : list (str * str).

Lemma linked_sym (x y : str) : linked E x y -> linked E y x.
Proof. unfold linked. tauto. Qed.

Lemma connected_trans (x y z : str) :
  connected E x y -> connected E y z -> connected E x z.
Proof.
  induction 1 as [x|x w y Hl Hc IH]; intros Hz; [exact Hz|].
  apply (connected_step E x w z Hl). auto.
Qed.

Lemma connected_sym (x y : str) : connected E x y -> connected E y x.
Proof.
  induction 1 as [x|x w y Hl Hc IH]; [constructor|].
  apply (connected_trans y w x IH).
  apply (connected_step E w x x (linked_sym _ _ Hl)). constructor.
Qed.

Lemma connected_node (x y : str) :
  connected E x y -> x = y \/ (node E x /\ node E y).
Proof.
  induction 1 as [x|x w y Hl Hc IH]; [left; reflexivity|].
  right. split; [exists w; exact Hl|].
  destruct IH as [<-|[_ Hy]]; [|exact Hy].
  exists x. apply linked_sym. exact Hl.
Qed.

(** All members of a component are connected to each other, and a component
    holds all that is connected to one of its members. *)
Lemma component_closed (c : list str) (x y : str) :
  component E c -> In x c -> (In y c <-> connected E x y).
Proof.
  intros (x0 & _ & H) Hx. apply H in Hx. rewrite H. split.
  - intros Hy. apply (connected_trans x x0 y); auto using connected_sym.
  - intros Hxy. apply (connected_trans x0 x y); auto.
Qed.

End connectivity.

Section edge_added.
Variable E : list (str * str).
Variables u v : str.

Lemma linked_add (x y : str) :
  linked (E ++ [(u, v)]) x y
  <-> linked E x y \/ (x = u /\ y = v) \/ (x = v /\ y = u).
Proof.
  unfold linked. rewrite !in_app_iff. simpl. split.
  - intros [[H|[H|[]]]|[H|[H|[]]]]; auto; injection H as -> ->; auto.
  - intros [[H|H]|[[-> ->]|[-> ->]]]; auto.
Qed.

Lemma connected_mono (x y : str) :
  connected E x y -> connected (E ++ [(u, v)]) x y.
Proof.
  induction 1 as [x|x w y Hl Hc IH]; [constructor|].
  apply (connected_step _ x w y); [|exact IH].
  apply linked_add. auto.
Qed.

Lemma connected_add (x y : str) :
  connected (E ++ [(u, v)]) x y
  <-> connected E x y
      \/ (connected E x u /\ connected E v y)
      \/ (connected E x v /\ connected E u y).
Proof.
  split.
  - induction 1 as [x|x w y Hl Hc IH]; [left; constructor|].
    apply linked_add in Hl.
    destruct Hl as [Hl|[[-> ->]|[-> ->]]].
    + destruct IH as [H|[[H1 H2]|[H1 H2]]].
      * left. apply (connected_step E x w y Hl H).
      * right. left. split; [|exact H2].
        apply (connected_step E x w u Hl H1).
      * right. right. split; [|exact H2].
        apply (connected_step E x w v Hl H1).
    + destruct IH as [H|[[H1 H2]|[H1 H2]]].
      * right. left. split; [constructor | exact H].
      * left. apply (connected_trans E u v y); auto using connected_sym.
      * left. exact H2.
    + destruct IH as [H|[[H1 H2]|[H1 H2]]].
      * right. right. split; [constructor | exact H].
      * left. exact H2.
      * left. apply (connected_trans E v u y); auto using connected_sym.
  - assert (Huv : connected (E ++ [(u, v)]) u v).
    { apply (connected_step _ u v v); [|constructor].
      apply linked_add. auto. }
    assert (Hvu : connected (E ++ [(u, v)]) v u).
    { apply (connected_step _ v u u); [|constructor].
      apply linked_add. auto. }
    intros [H|[[H1 H2]|[H1 H2]]].
    + apply connected_mono, H.
    + apply (connected_trans _ x u y); [apply connected_mono, H1|].
      apply (connected_trans _ u v y); [exact Huv | apply connected_mono, H2].
    + apply (connected_trans _ x v y); [apply connected_mono, H1|].
      apply (connected_trans _ v u y); [exact Hvu | apply connected_mono, H2].
Qed.
End edge_added.

(** ** The implementation of the graph API satisfies the contract *)

Lemma existsb_eqb_In (x : str) (c : list str) :
  existsb (str_eqb x) c = true <-> In x c.
Proof.
  rewrite existsb_exists. split.
  - intros (y & Hy & E). apply str_eqb_eq in E. subst. exact Hy.
  - intros H. exists x. split; [exact H | apply str_eqb_refl].
Qed.

Lemma touches_true (u v : str) (c : list str) :
  touches u v c = true <-> In u c \/ In v c.
Proof.
  unfold touches. rewrite orb_true_iff, !existsb_eqb_In. reflexivity.
Qed.

Lemma touches_false (u v : str) (c : list str) :
  touches u v c = false <-> ~ In u c /\ ~ In v c.
Proof.
  rewrite <- not_true_iff_false, touches_true. tauto.
Qed.

Lemma merged_In (u v y : str) (cs : list (list str)) :
  In y (nodup str_dec (u :: v :: List.concat (filter (touches u v) cs)))
  <-> y = u \/ y = v
      \/ exists c, In c cs /\ touches u v c = true /\ In y c.
Proof.
  rewrite nodup_In. simpl. rewrite in_concat. split.
  - intros [H|[H|(c & Hc & Hy)]]; auto.
    apply filter_In in Hc. right. right. exists c. tauto.
  - intros [H|[H|(c & Hc & Ht & Hy)]]; auto.
    right. right. exists c. rewrite filter_In. tauto.
Qed.

Lemma merge_In (u v : str) (cs : list (list str)) (c : list str) :
  In c (merge u v cs)
  <-> (In c cs /\ touches u v c = false)
      \/ c = nodup str_dec
               (u :: v :: List.concat (filter (touches u v) cs)).
Proof.
  unfold merge. rewrite in_app_iff, filter_In, negb_true_iff. simpl.
  intuition.
Qed.

Section merge_step.
Variable E : list (str * str).
Variables u v : str.
Variable cs : list (list str).
Hypothesis Hcs : partition_into_components E cs.

Local Abbreviation merged :=
  (nodup str_dec (u :: v :: List.concat (filter (touches u v) cs))).

(** The merged list holds what was connected to [u] or to [v]. *)
Lemma merged_connected (y : str) :
  In y merged <-> connected E u y \/ connected E v y.
Proof.
  destruct Hcs as (_ & Hcomp & Hcover & _).
  rewrite merged_In. split.
  - intros [->|[->|(c & Hc & Ht & Hy)]].
    + left. constructor.
    + right. constructor.
    + destruct (Hcomp c Hc) as [_ Hcc]. apply touches_true in Ht.
      destruct Ht as [Ht|Ht]; [left | right];
        apply (component_closed E c _ y Hcc Ht); exact Hy.
  - assert (Hfrom : forall w, In w [u; v] -> connected E w y ->
                              y = w \/ exists c, In c cs /\ In w c /\ In y c).
    { intros w _ Hwy.
      destruct (connected_node E w y Hwy) as [->|[Hw _]]; [auto|].
      right. destruct (Hcover w Hw) as (c & Hc & Hwc).
      exists c. split; [exact Hc|]. split; [exact Hwc|].
      destruct (Hcomp c Hc) as [_ Hcc].
      apply (component_closed E c w y Hcc Hwc). exact Hwy. }
    intros [H|H].
    + destruct (Hfrom u (or_introl eq_refl) H) as [->|(c & Hc & Hu & Hy)];
        [auto|].
      right. right. exists c. rewrite touches_true. tauto.
    + destruct (Hfrom v (or_intror (or_introl eq_refl)) H)
        as [->|(c & Hc & Hv & Hy)]; [auto|].
      right. right. exists c. rewrite touches_true. tauto.
Qed.

Lemma merged_component : component (E ++ [(u, v)]) merged.
Proof.
  exists u. split.
  - exists v. apply linked_add. auto.
  - intros y. rewrite merged_connected, connected_add. split.
    + intros [H|H]; [left; exact H|].
      right. left. split; [constructor | exact H].
    + intros [H|[[_ H]|[H1 H2]]]; auto.
Qed.

Lemma untouched_component (c : list str) :
  In c cs -> touches u v c = false -> component (E ++ [(u, v)]) c.
Proof.
  intros Hc Ht. destruct Hcs as (_ & Hcomp & _ & _).
  destruct (Hcomp c Hc) as [_ (x & Hx & Hin)].
  apply touches_false in Ht. destruct Ht as [Hu Hv].
  exists x. split.
  - destruct Hx as [y Hy]. exists y. apply linked_add. auto.
  - intros y. rewrite connected_add, Hin. split; [auto|].
    intros [H|[[H _]|[H _]]]; [exact H | |].
    + exfalso. apply Hu, Hin, H.
    + exfalso. apply Hv, Hin, H.
Qed.

Lemma merge_partition :
  partition_into_components (E ++ [(u, v)]) (merge u v cs).
Proof.
  pose proof Hcs as (Hnd & Hcomp & Hcover & Hshare).
  assert (Hu : In u merged) by (apply merged_In; auto).
  assert (Hclash : forall c x, In c cs -> touches u v c = false ->
                               In x c -> In x merged -> False).
  { intros c x Hc Ht Hx Hm. pose proof Ht as Ht'.
    apply touches_false in Ht. destruct Ht as [Hcu Hcv].
    apply merged_In in Hm.
    destruct Hm as [->|[->|(c' & Hc' & Ht'' & Hx')]]; auto.
    assert (c = c') by (apply (Hshare c c' x); auto). subst c'.
    congruence. }
  split; [|split; [|split]].
  - unfold merge. apply NoDup_app.
    + apply NoDup_filter, Hnd.
    + constructor; [intros [] | constructor].
    + intros c Hc [Ec|[]]. apply filter_In in Hc. destruct Hc as [Hc Ht].
      apply negb_true_iff in Ht. apply (Hclash c u Hc Ht); [|exact Hu].
      rewrite <- Ec. exact Hu.
  - intros c H. apply merge_In in H. destruct H as [[Hc Ht]| ->].
    + split; [apply Hcomp, Hc | apply untouched_component; assumption].
    + split; [apply NoDup_nodup | apply merged_component].
  - intros x [y Hy]. apply linked_add in Hy.
    destruct Hy as [Hy|[[-> _]|[-> _]]].
    + destruct (Hcover x (ex_intro _ y Hy)) as (c & Hc & Hx).
      destruct (touches u v c) eqn:Ht.
      * exists merged. split; [apply merge_In; auto|].
        apply merged_In. right. right. exists c. auto.
      * exists c. split; [apply merge_In; auto | exact Hx].
    + exists merged. split; [apply merge_In; auto | exact Hu].
    + exists merged. split; [apply merge_In; auto|].
      apply merged_In. auto.
  - intros c c' x Hc Hc' Hx Hx'.
    apply merge_In in Hc, Hc'.
    destruct Hc as [[Hc Ht]| ->], Hc' as [[Hc' Ht']| ->].
    + apply (Hshare c c' x); assumption.
    + exfalso. exact (Hclash c x Hc Ht Hx Hx').
    + exfalso. exact (Hclash c' x Hc' Ht' Hx' Hx).
    + reflexivity.
Qed.
End merge_step.

Lemma partition_empty : partition_into_components [] [].
Proof.
  split; [constructor|]. split; [intros c []|].
  split; [intros x [y [[]|[]]] | intros c c' x []].
Qed.

Lemma fold_merge_partition (G E : list (str * str))
  (cs : list (list str)) :
  partition_into_components E cs ->
  partition_into_components (E ++ G)
    (fold_left (fun cs e => merge (fst e) (snd e) cs) G cs).
Proof.
  revert E cs. induction G as [|[u v] G IH]; intros E cs H.
  - rewrite app_nil_r. exact H.
  - simpl. replace (E ++ (u, v) :: G) with ((E ++ [(u, v)]) ++ G)
      by (rewrite <- app_assoc; reflexivity).
    apply IH, merge_partition, H.
Qed.

Lemma components_partition (E : list (str * str)) :
  partition_into_components E (components E).
Proof. apply (fold_merge_partition E [] []), partition_empty. Qed.

Lemma edge_list_nx_conforms : conforms edge_list_nx.
Proof.
  exists (fun G => G). split; [|split].
  - exists []. auto.
  - intros G u v. exists (G ++ [(u, v)]). auto.
  - intros G. exists (components G). split; [reflexivity|].
    apply components_partition.
Qed.

(** ** Cluster analysis over a conforming graph API *)

Lemma string_entries_In (s : str) (l : list value) :
  In s (string_entries l) <-> In (VStr s) l.
Proof.
  unfold string_entries. rewrite in_flat_map. split.
  - intros (x & Hx & Hs). destruct x; try contradiction.
    destruct Hs as [->|[]]. exact Hx.
  - intros H. exists (VStr s). simpl. auto.
Qed.

Lemma valid_edges_In (a b : str) (items : list (value * value)) :
  In (a, b) (valid_edges items)
  <-> exists friends, In (VStr a, VList friends) items /\ In (VStr b) friends.
Proof.
  unfold valid_edges. rewrite in_flat_map. split.
  - intros ([k x] & Hx & Hab).
    destruct k; try contradiction. destruct x; try contradiction.
    apply in_map_iff in Hab. destruct Hab as (f & E & Hf).
    injection E as -> ->. exists l. rewrite <- string_entries_In. auto.
  - intros (friends & Hi & Hb). exists (VStr a, VList friends).
    split; [exact Hi|]. apply in_map, string_entries_In, Hb.
Qed.

Section graph_building.
Variable nx : networkx.
Variable edges : graph nx -> list (str * str).
Hypothesis Hadd :
  forall G u v,
    exists G', add_edge nx G u v = Ok G' /\ edges G' = edges G ++ [(u, v)].

Lemma add_friends_edges (account : str) (friends : list value)
  (G : graph nx) :
  edges (add_friends nx account friends G)
  = edges G ++ map (pair account) (string_entries friends).
Proof.
  revert G. induction friends as [|friend rest IH]; intros G; simpl.
  - rewrite app_nil_r. reflexivity.
  - destruct friend; simpl; auto.
    destruct (Hadd G account s) as (G' & -> & HG').
    rewrite IH, HG', <- app_assoc. reflexivity.
Qed.

Lemma add_accounts_edges (items : list (value * value)) (G : graph nx) :
  edges (add_accounts nx items G) = edges G ++ valid_edges items.
Proof.
  revert G. induction items as [|[account friends] items IH]; intros G; simpl.
  - rewrite app_nil_r. reflexivity.
  - destruct friends; try (destruct account; exact (IH G)).
    destruct account; try exact (IH G).
    rewrite IH, add_friends_edges, <- app_assoc. reflexivity.
Qed.
End graph_building.

Lemma component_Permutation (E : list (str * str)) (c c' : list str) :
  Permutation c c' -> component E c -> component E c'.
Proof.
  intros Hp (x & Hx & Hin). exists x. split; [exact Hx|].
  intros y. rewrite <- Hin. split; apply Permutation_in; auto.
  symmetry. exact Hp.
Qed.

(** With a graph API that conforms, [analyze_network] returns, each once,
    the node sets of the components of the graph of the valid pairs whose
    size is strictly greater than [cluster_threshold]. *)
Lemma analyze_network_conforming
  (nx : networkx) (cluster_threshold : Z) (items : list (value * value)) :
  conforms nx ->
  exists out,
    analyze_network nx cluster_threshold (VDict items) = Ok out
    /\ NoDup out
    /\ (forall c, In c out -> NoDup c)
    /\ (forall c c' x, In c out -> In c' out -> In x c -> In x c' -> c = c')
    /\ (forall c,
          NoDup c ->
          (exists c', In c' out /\ Permutation c' c)
          <-> component (valid_edges items) c
              /\ (cluster_threshold < Z.of_nat (List.length c))%Z).
Proof.
  intros (edges & (G0 & HG0 & HE0) & Hadd & Hcc).
  destruct (Hcc (add_accounts nx items G0)) as (cs & Hcs & Hpart).
  rewrite (add_accounts_edges nx edges Hadd), HE0 in Hpart. simpl in Hpart.
  destruct Hpart as (Hnd & Hcomp & Hcover & Hshare).
  eexists. split; [simpl; rewrite HG0, Hcs; reflexivity|].
  split; [apply NoDup_filter, Hnd|].
  split; [intros c Hc; apply filter_In in Hc; apply Hcomp, Hc|].
  split.
  { intros c c' x Hc Hc'. apply filter_In in Hc, Hc'.
    apply Hshare; tauto. }
  intros c Hndc. split.
  - intros (c' & Hc' & Hp). apply filter_In in Hc'.
    destruct Hc' as [Hc' Hlen]. apply Z.ltb_lt in Hlen.
    rewrite <- (Permutation_length Hp). split; [|exact Hlen].
    apply (component_Permutation _ c' c Hp), Hcomp, Hc'.
  - intros [Hc Hlen]. pose proof Hc as (x & Hx & Hin).
    destruct (Hcover x Hx) as (c' & Hc' & Hxc').
    destruct (Hcomp c' Hc') as [Hndc' Hcc'].
    assert (Hp : Permutation c' c).
    { apply NoDup_Permutation; auto. intros y.
      rewrite (component_closed _ c' x y Hcc' Hxc'), Hin. reflexivity. }
    exists c'. split; [|exact Hp].
    apply filter_In. split; [exact Hc'|].
    apply Z.ltb_lt. rewrite (Permutation_length Hp). exact Hlen.
Qed.

(** With a graph API that conforms, two strings one of which is listed as a
    friend of the other are in the same component, whichever lists the
    other. *)
Lemma friends_share_component
  (nx : networkx) (items : list (value * value)) (a b : str)
  (friends : list value) :
  conforms nx ->
  (In (VStr a, VList friends) items /\ In (VStr b) friends)
  \/ (In (VStr b, VList friends) items /\ In (VStr a) friends) ->
  exists G cs,
    Graph nx tt = Ok G
    /\ connected_components nx (add_accounts nx items G) = Ok cs
    /\ exists c, In c cs /\ In a c /\ In b c.
Proof.
  intros (edges & (G0 & HG0 & HE0) & Hadd & Hcc) Hab.
  destruct (Hcc (add_accounts nx items G0)) as (cs & Hcs & Hpart).
  rewrite (add_accounts_edges nx edges Hadd), HE0 in Hpart. simpl in Hpart.
  destruct Hpart as (_ & Hcomp & Hcover & _).
  exists G0, cs. split; [exact HG0|]. split; [exact Hcs|].
  assert (Hl : linked (valid_edges items) a b).
  { destruct Hab as [[H1 H2]|[H1 H2]]; [left | right];
      apply valid_edges_In; exists friends; auto. }
  destruct (Hcover a (ex_intro _ b Hl)) as (c & Hc & Ha).
  exists c. split; [exact Hc|]. split; [exact Ha|].
  destruct (Hcomp c Hc) as [_ Hcc'].
  apply (component_closed _ c a b Hcc' Ha).
  apply (connected_step _ a b b Hl). constructor.
Qed.

(** ** The module as it is written *)

(** X11. In the module as it is written the name [parser] is not bound, so
    no timestamp is ever parsed: [detect_abnormal_posting] returns the empty
    list on every input, whatever the thresholds. *)
Lemma detect_abnormal_posting_module
  (stdev : list Q -> result Q)
  (interval_threshold outlier_threshold_stddev : Q) (accounts_data : value) :
  detect_abnormal_posting module_parse stdev interval_threshold
    outlier_threshold_stddev accounts_data = Ok [].
Proof.
  destruct accounts_data as [| | | |items]; try reflexivity.
  destruct (detect_abnormal_posting_members module_parse stdev
              interval_threshold outlier_threshold_stddev items)
    as (out & Hout & Hin).
  rewrite Hout. f_equal. destruct out as [|x out]; [reflexivity|].
  exfalso. destruct (proj1 (Hin x) (or_introl eq_refl))
    as (ts & _ & strs & ins & _ & _ & _ & Hp & _ & Hlen & _).
  apply Permutation_length in Hp.
  assert (E : parsed_instants module_parse strs = []).
  { clear. induction strs; simpl; auto. }
  rewrite E in Hp. simpl in Hp. lia.
Qed.

(** X19. In the module as it is written the name [TextBlob] is not bound,
    so every scoring attempt fails: [sentiment_analysis] returns 0 on every
    input. *)
Lemma sentiment_analysis_module (posts : value) :
  sentiment_analysis module_polarity posts = Ok 0%Q.
Proof.
  destruct posts as [| | |posts|]; try reflexivity.
  destruct (sentiment_analysis_scores module_polarity posts)
    as (r & -> & _ & Hz).
  f_equal. apply Hz. apply scores_unscored, Forall_forall. intros post _.
  destruct post; simpl; auto. exists NameError. reflexivity.
Qed.

(** C3. The claim: on a dictionary [analyze_network] returns the node sets
    of the components of the graph of the valid pairs whose size exceeds
    [cluster_threshold].  The module as written: [nx] is not bound, and on
    every dictionary the call [nx.Graph()] raises [NameError], which reaches
    the caller. *)
Theorem analyze_network_unbound_graph
  (cluster_threshold : Z) (items : list (value * value)) :
  analyze_network module_nx cluster_threshold (VDict items) = Raise NameError.
Proof. reflexivity. Qed.

(** C8. The claim: two identifiers are in the same component whichever of
    them lists the other as a friend.  The module as written: [nx] is not
    bound, and for either input no component is returned, the call raises
    [NameError]. *)
Theorem analyze_network_unbound_symmetry
  (cluster_threshold : Z) (a b : str) :
  analyze_network module_nx cluster_threshold
    (VDict [(VStr a, VList [VStr b])]) = Raise NameError
  /\ analyze_network module_nx cluster_threshold
       (VDict [(VStr b, VList [VStr a])]) = Raise NameError.
Proof. split; reflexivity. Qed.

(** ** What [strip] does *)

Lemma lstrip_spec (s : str) :
  exists pre,
    s = (pre ++ lstrip s)%str
    /\ all_space pre = true
    /\ starts_with_space (lstrip s) = false.
Proof.
  induction s as [|c s (pre & E & Hpre & Hs)].
  - exists EmptyStr. auto.
  - simpl. destruct (is_space c) eqn:Ec.
    + exists (Str c pre). simpl. rewrite <- E.
      unfold all_space in *. simpl. rewrite Ec, Hpre. auto.
    + exists EmptyStr. simpl. auto.
Qed.

Lemma rstrip_spec (s : str) :
  exists post,
    s = (rstrip s ++ post)%str
    /\ all_space post = true
    /\ ends_with_space (rstrip s) = false.
Proof.
  induction s as [|c s (post & E & Hpost & Hs)].
  - exists EmptyStr. auto.
  - simpl. destruct (rstrip s) as [|d r] eqn:Er.
    + simpl in E. subst post. destruct (is_space c) eqn:Ec.
      * exists (Str c s). unfold all_space in *. simpl.
        rewrite Ec, Hpost. auto.
      * exists s. simpl. auto.
    + exists post. simpl. rewrite E at 1. auto.
Qed.

Lemma rstrip_start (s : str) :
  starts_with_space s = false -> starts_with_space (rstrip s) = false.
Proof.
  destruct s as [|c s]; simpl; [auto|]. intros Hc.
  destruct (rstrip s); [rewrite Hc|]; simpl; auto.
Qed.

(** [strip] removes a prefix and a suffix of white space, and what is left
    neither starts nor ends with white space. *)
Lemma strip_trims (s : str) :
  exists pre post,
    s = (pre ++ strip s ++ post)%str
    /\ all_space pre = true /\ all_space post = true
    /\ starts_with_space (strip s) = false
    /\ ends_with_space (strip s) = false.
Proof.
  destruct (lstrip_spec s) as (pre & E & Hpre & Hs).
  destruct (rstrip_spec (lstrip s)) as (post & E' & Hpost & He).
  exists pre, post. unfold strip.
  split; [rewrite <- E'; exact E|].
  split; [exact Hpre|]. split; [exact Hpost|].
  split; [apply rstrip_start, Hs | exact He].
Qed.

(** ** The scenarios of the specification *)

Example scenario_intervals :
  detect_abnormal_posting parse_clock stdev_floor 30 2
    (VDict
       [(VStr "bot1",
         VList [VStr "12:00:00"; VStr "12:00:04"; VStr "12:00:08";
                VStr "12:00:12"; VStr "12:00:16"]);
        (VStr "human",
         VList [VStr "12:00:00"; VStr "12:01:00"; VStr "12:02:00";
                VStr "12:03:00"; VStr "12:04:00"])])
  = Ok [VStr "bot1"].
Proof. vm_compute. reflexivity. Qed.

(** A burst: the mean gap is above the threshold and one gap is far below
    the others. *)
Example scenario_burst :
  detect_abnormal_posting parse_clock stdev_floor 30 2
    (VDict
       [(VStr "burst",
         VList [VStr "00:00:00"; VStr "00:01:40"; VStr "00:03:20";
                VStr "00:05:00"; VStr "00:06:40"; VStr "00:08:20";
                VStr "00:10:00"; VStr "00:10:01"; VStr "00:11:41";
                VStr "00:13:21"; VStr "00:15:01"]);
        (VStr "mixed", VList [VStr "12:00:00"; VInt 5; VStr "12:00:01"]);
        (VStr "junk", VList [VStr "12:00:00"; VStr "soon"; VStr "12:00:01"]);
        (VInt 7, VStr "12:00:00")])
  = Ok [VStr "burst"; VStr "junk"].
Proof. vm_compute. reflexivity. Qed.

Example scenario_phrases :
  detect_repeated_phrases 1 default_cleaning
    (VList [VStr "spam"; VStr "spam"; VStr "spam"; VStr "unique"])
  = Ok ["spam"%str].
Proof. reflexivity. Qed.

Example scenario_clusters :
  analyze_network edge_list_nx 2
    (VDict [(VStr "a", VList [VStr "b"]); (VStr "b", VList [VStr "c"]);
            (VStr "c", VList [VStr "a"]); (VStr "d", VList [VStr "e"])])
  = Ok [["c"; "a"; "b"]%str].
Proof. reflexivity. Qed.

Example scenario_module :
  analyze_network module_nx 2
    (VDict [(VStr "a", VList [VStr "b"]); (VStr "b", VList [VStr "c"]);
            (VStr "c", VList [VStr "a"]); (VStr "d", VList [VStr "e"])])
  = Raise NameError.
Proof. reflexivity. Qed.

(** * Further properties of the analyzers *)

(** ** [detect_abnormal_posting]: errors, order, thresholds *)

Section detector_more.
Variable parse : str -> result datetime.
Variable stdev : list Q -> result Q.
Variable interval_threshold outlier_threshold_stddev : Q.

Local Abbreviation visit_ :=
  (visit parse stdev interval_threshold outlier_threshold_stddev).
Local Abbreviation suspicious_ :=
  (suspicious parse stdev interval_threshold outlier_threshold_stddev).

Lemma add_once_absent (a : value) (s : list value) :
  ~ In a s -> add_once a s = s ++ [a].
Proof.
  intros H. unfold add_once. destruct (contains s a) eqn:E; [|reflexivity].
  apply contains_In in E. contradiction.
Qed.

Lemma visit_not_suspicious (account v : value) (s : list value) :
  ~ suspicious_ v -> visit_ (account, v) s = (Ok tt, s).
Proof.
  intros H.
  destruct (visit_spec parse stdev interval_threshold
              outlier_threshold_stddev account v s) as (b & Hv & Hb).
  rewrite Hv. destruct b; [|reflexivity]. exfalso. apply H, Hb. reflexivity.
Qed.

Lemma visit_suspicious_iff (account v v' : value) (s : list value) :
  (suspicious_ v <-> suspicious_ v') ->
  visit_ (account, v) s = visit_ (account, v') s.
Proof.
  intros Hiff.
  destruct (visit_spec parse stdev interval_threshold
              outlier_threshold_stddev account v s) as (b & Hv & Hb).
  destruct (visit_spec parse stdev interval_threshold
              outlier_threshold_stddev account v' s) as (b' & Hv' & Hb').
  rewrite Hv, Hv'. assert (b = b'); [|subst; reflexivity].
  destruct b, b'; auto.
  - symmetry. apply Hb', Hiff, Hb. reflexivity.
  - apply Hb, Hiff, Hb'. reflexivity.
Qed.

Lemma for_each_visit_skip (x : value * value)
  (before after : list (value * value)) (s : list value) :
  (forall s, visit_ x s = (Ok tt, s)) ->
  for_each (before ++ x :: after) visit_ s
  = for_each (before ++ after) visit_ s.
Proof.
  intros H. revert s. induction before as [|y before IH]; intros s.
  - cbn [app for_each]. unfold bind. rewrite H. reflexivity.
  - cbn [app for_each]. unfold bind.
    destruct (visit_ y s) as [[u|e] s1]; [apply IH | reflexivity].
Qed.

Lemma malformed_not_suspicious (v : value) : malformed v -> ~ suspicious_ v.
Proof.
  intros Hbad (strs & ins & -> & _). simpl in Hbad.
  rewrite check_strings_Ok in Hbad. discriminate.
Qed.

Lemma gives_up_not_suspicious (l : list value) (ts : str) (e : exn) :
  In (VStr ts) l -> parse ts = Raise e -> isinstance_ValueError e = false ->
  ~ suspicious_ (VList l).
Proof.
  intros Hin Hp He (strs & ins & E & Hg & _). injection E as ->.
  apply Hg. exists ts, e. split; [|auto].
  apply in_map_iff in Hin. destruct Hin as (x & Ex & Hx).
  injection Ex as ->. exact Hx.
Qed.

(** The loop over the items, for a dictionary: the accounts are appended in
    the order of the items. *)
Lemma for_each_visit_order (items : list (value * value)) (s : list value) :
  NoDup (map fst items) ->
  (forall x, In x (map fst items) -> ~ In x s) ->
  exists mask,
    Forall2 (fun m item => m = true <-> suspicious_ (snd item)) mask items
    /\ for_each items visit_ s = (Ok tt, s ++ map fst (select mask items)).
Proof.
  revert s. induction items as [|[account ts] items IH]; intros s Hnd Hs.
  - exists []. split; [constructor|]. simpl. rewrite app_nil_r. reflexivity.
  - inversion Hnd as [|? ? Ha Hnd']; subst.
    destruct (visit_spec parse stdev interval_threshold
                outlier_threshold_stddev account ts s) as (b & Hv & Hb).
    assert (Habs : ~ In account s) by (apply Hs; left; reflexivity).
    rewrite (add_once_absent _ _ Habs) in Hv.
    destruct (IH (if b then s ++ [account] else s) Hnd') as (mask & HF & Hrun).
    { intros x Hx Hin. destruct b.
      - apply in_app_iff in Hin. destruct Hin as [Hin|[<-|[]]].
        + apply (Hs x); [right; exact Hx | exact Hin].
        + exact (Ha Hx).
      - apply (Hs x); [right; exact Hx | exact Hin]. }
    exists (b :: mask). split; [constructor; [exact Hb | exact HF]|].
    cbn [for_each]. unfold bind. rewrite Hv, Hrun.
    destruct b; cbn [select map fst]; [rewrite <- app_assoc|]; reflexivity.
Qed.
End detector_more.

(** X1. Whatever the parser and [statistics.stdev] return or raise, no
    exception leaves the body of the loop of [detect_abnormal_posting]: every
    item of the dictionary is visited and the function returns a list. *)
Theorem detect_abnormal_posting_visits_all
  (parse : str -> result datetime) (stdev : list Q -> result Q)
  (interval_threshold outlier_threshold_stddev : Q)
  (items : list (value * value)) :
  exists out,
    for_each items
      (visit parse stdev interval_threshold outlier_threshold_stddev) []
    = (Ok tt, out)
    /\ detect_abnormal_posting parse stdev interval_threshold
         outlier_threshold_stddev (VDict items) = Ok out.
Proof.
  destruct (for_each_visit parse stdev interval_threshold
              outlier_threshold_stddev items []) as (out & Hrun & _).
  exists out. split; [exact Hrun|]. simpl. rewrite Hrun. reflexivity.
Qed.

(** X2. For a dictionary (no key twice) the output of
    [detect_abnormal_posting] is the keys of the flagged items in the order
    of the dictionary. *)
Theorem detect_abnormal_posting_in_order
  (parse : str -> result datetime) (stdev : list Q -> result Q)
  (interval_threshold outlier_threshold_stddev : Q)
  (items : list (value * value))
  (Hkeys : NoDup (map fst items)) :
  exists mask,
    Forall2
      (fun m item =>
         m = true <->
         suspicious parse stdev interval_threshold outlier_threshold_stddev
           (snd item))
      mask items
    /\ detect_abnormal_posting parse stdev interval_threshold
         outlier_threshold_stddev (VDict items)
       = Ok (map fst (select mask items)).
Proof.
  destruct (for_each_visit_order parse stdev interval_threshold
              outlier_threshold_stddev items [] Hkeys) as (mask & HF & Hrun).
  { intros x _ []. }
  exists mask. split; [exact HF|]. simpl. rewrite Hrun. reflexivity.
Qed.

Lemma detect_abnormal_posting_in_order_witness :
  exists mask,
    Forall2
      (fun m item =>
         m = true <-> suspicious parse_clock stdev_floor 30 2 (snd item))
      mask
      [(VStr "slow", VList [VStr "10:00:00"; VStr "12:30:00"]);
       (VStr "fast", VList [VStr "11:59:50"; VStr "11:59:55"])]
    /\ detect_abnormal_posting parse_clock stdev_floor 30 2
         (VDict [(VStr "slow", VList [VStr "10:00:00"; VStr "12:30:00"]);
                 (VStr "fast", VList [VStr "11:59:50"; VStr "11:59:55"])])
       = Ok (map fst
               (select mask
                  [(VStr "slow", VList [VStr "10:00:00"; VStr "12:30:00"]);
                   (VStr "fast", VList [VStr "11:59:50"; VStr "11:59:55"])])).
Proof.
  apply (detect_abnormal_posting_in_order parse_clock stdev_floor 30 2).
  simpl. constructor.
  - intros [H|[]]. discriminate H.
  - constructor; [intros [] | constructor].
Defined.

(** X3. An account whose value is not a list of strings (not a list, or a
    list with an element that is not a string) is skipped as a whole and the
    other accounts are processed as if it were not there. *)
Theorem malformed_account_is_skipped
  (parse : str -> result datetime) (stdev : list Q -> result Q)
  (interval_threshold outlier_threshold_stddev : Q)
  (before after : list (value * value)) (account timestamps : value)
  (Hbad : malformed timestamps) :
  detect_abnormal_posting parse stdev interval_threshold
    outlier_threshold_stddev (VDict (before ++ (account, timestamps) :: after))
  = detect_abnormal_posting parse stdev interval_threshold
      outlier_threshold_stddev (VDict (before ++ after)).
Proof.
  simpl. f_equal. f_equal. apply for_each_visit_skip.
  intros s. apply visit_not_suspicious, malformed_not_suspicious, Hbad.
Qed.

Lemma malformed_account_is_skipped_witness :
  detect_abnormal_posting parse_clock stdev_floor 30 2
    (VDict ([(VStr "fast", VList [VStr "11:59:50"; VStr "11:59:55"])]
            ++ (VStr "mixed", VList [VStr "12:00:00"; VInt 5; VStr "12:00:01"])
            :: []))
  = detect_abnormal_posting parse_clock stdev_floor 30 2
      (VDict ([(VStr "fast", VList [VStr "11:59:50"; VStr "11:59:55"])] ++ [])).
Proof.
  apply (malformed_account_is_skipped parse_clock stdev_floor 30 2).
  reflexivity.
Defined.

(** X5. When the parser raises, on some timestamp of an account, an
    exception that is not a [ValueError], the account is given up, even if
    its other timestamps parse, and the other accounts are processed as if
    it were not there. *)
Theorem parser_failure_gives_up_account
  (parse : str -> result datetime) (stdev : list Q -> result Q)
  (interval_threshold outlier_threshold_stddev : Q)
  (before after : list (value * value)) (account : value)
  (timestamps : list value) (ts : str) (e : exn)
  (Hin : In (VStr ts) timestamps)
  (Hraise : parse ts = Raise e)
  (Hkind : isinstance_ValueError e = false) :
  detect_abnormal_posting parse stdev interval_threshold
    outlier_threshold_stddev
    (VDict (before ++ (account, VList timestamps) :: after))
  = detect_abnormal_posting parse stdev interval_threshold
      outlier_threshold_stddev (VDict (before ++ after)).
Proof.
  simpl. f_equal. f_equal. apply for_each_visit_skip.
  intros s. apply visit_not_suspicious.
  apply (gives_up_not_suspicious parse stdev _ _ timestamps ts e); assumption.
Qed.

Lemma parser_failure_gives_up_account_witness :
  detect_abnormal_posting
    (fun ts => if (ts =? "9999")%str then Raise OtherError
               else parse_clock ts)
    stdev_floor 30 2
    (VDict ([] ++ (VStr "fast",
                   VList [VStr "11:59:50"; VStr "9999"; VStr "11:59:55"])
            :: []))
  = detect_abnormal_posting
      (fun ts => if (ts =? "9999")%str then Raise OtherError
                 else parse_clock ts)
      stdev_floor 30 2 (VDict ([] ++ [])).
Proof.
  apply (parser_failure_gives_up_account _ stdev_floor 30 2 [] [] (VStr "fast")
           [VStr "11:59:50"; VStr "9999"; VStr "11:59:55"] "9999" OtherError).
  - simpl. auto.
  - reflexivity.
  - reflexivity.
Defined.

(** X25. When the parsed timestamps of an account mix naive and aware
    datetimes, [sorted] raises [TypeError] at line 59, the handler swallows
    it, and the account is skipped whatever its gaps: the other accounts are
    processed as if it were not there. *)
Theorem mixed_kinds_account_is_skipped
  (parse : str -> result datetime) (stdev : list Q -> result Q)
  (interval_threshold outlier_threshold_stddev : Q)
  (before after : list (value * value)) (account : value)
  (timestamps : list str)
  (Hmixed : comparable (parsed_instants parse timestamps) = false) :
  detect_abnormal_posting parse stdev interval_threshold
    outlier_threshold_stddev
    (VDict (before ++ (account, VList (map VStr timestamps)) :: after))
  = detect_abnormal_posting parse stdev interval_threshold
      outlier_threshold_stddev (VDict (before ++ after)).
Proof.
  simpl. f_equal. f_equal. apply for_each_visit_skip.
  intros s. apply visit_not_suspicious.
  intros (strs & ins & E & _ & Hk & _).
  injection E as E. apply map_VStr_inj in E. subst strs. congruence.
Qed.

Lemma mixed_kinds_account_is_skipped_witness :
  detect_abnormal_posting parse_clock stdev_floor 30 2
    (VDict ([(VStr "fast", VList [VStr "11:59:50"; VStr "11:59:55"])]
            ++ (VStr "mixed",
                VList (map VStr ["12:00:01"; "12:00:05Z"]%str))
            :: []))
  = detect_abnormal_posting parse_clock stdev_floor 30 2
      (VDict ([(VStr "fast", VList [VStr "11:59:50"; VStr "11:59:55"])] ++ [])).
Proof.
  apply (mixed_kinds_account_is_skipped parse_clock stdev_floor 30 2).
  reflexivity.
Defined.

(** *** Timestamps that do not parse *)

Section unparseable.
Variable parse : str -> result datetime.
Variable stdev : list Q -> result Q.
Variable interval_threshold outlier_threshold_stddev : Q.
Variables (l1 l2 : list value) (ts : str) (e : exn).
Hypothesis Hraise : parse ts = Raise e.
Hypothesis Hkind : isinstance_ValueError e = true.

Local Abbreviation suspicious_ :=
  (suspicious parse stdev interval_threshold outlier_threshold_stddev).

Lemma parsed_instants_drop (s1 s2 : list str) :
  parsed_instants parse (s1 ++ ts :: s2) = parsed_instants parse (s1 ++ s2).
Proof.
  unfold parsed_instants. rewrite !flat_map_app. simpl. rewrite Hraise.
  reflexivity.
Qed.

Lemma gives_up_drop (s1 s2 : list str) :
  gives_up parse (s1 ++ ts :: s2) <-> gives_up parse (s1 ++ s2).
Proof.
  split; intros (x & e' & Hx & Hp & He); exists x, e'.
  - split; [|auto]. apply in_app_iff in Hx. apply in_app_iff.
    destruct Hx as [Hx|[->|Hx]]; auto. congruence.
  - split; [|auto]. apply in_app_iff in Hx. apply in_app_iff.
    simpl. tauto.
Qed.

Lemma suspicious_drop :
  suspicious_ (VList (l1 ++ VStr ts :: l2)) <-> suspicious_ (VList (l1 ++ l2)).
Proof.
  split; intros (strs & ins & E & Hg & Hk & Hp & Hrest); injection E as E;
    symmetry in E; apply map_eq_app in E;
    destruct E as (s1 & s2 & -> & E1 & E2).
  - apply map_eq_cons in E2. destruct E2 as (t & s2' & -> & Et & E2).
    injection Et as ->.
    exists (s1 ++ s2'), ins. split; [rewrite map_app; congruence|].
    split; [rewrite <- gives_up_drop; exact Hg|].
    split; [rewrite <- parsed_instants_drop; exact Hk|].
    split; [rewrite <- parsed_instants_drop; exact Hp | exact Hrest].
  - exists (s1 ++ ts :: s2), ins.
    split; [rewrite map_app; simpl; congruence|].
    split; [rewrite gives_up_drop; exact Hg|].
    split; [rewrite parsed_instants_drop; exact Hk|].
    split; [rewrite parsed_instants_drop; exact Hp | exact Hrest].
Qed.
End unparseable.

(** X4. A timestamp on which the parser raises [ValueError] is dropped:
    the result is the one obtained without that timestamp in the list of
    the account. *)
Theorem unparseable_timestamp_is_dropped
  (parse : str -> result datetime) (stdev : list Q -> result Q)
  (interval_threshold outlier_threshold_stddev : Q)
  (before after : list (value * value)) (account : value)
  (l1 l2 : list value) (ts : str) (e : exn)
  (Hraise : parse ts = Raise e)
  (Hkind : isinstance_ValueError e = true) :
  detect_abnormal_posting parse stdev interval_threshold
    outlier_threshold_stddev
    (VDict (before ++ (account, VList (l1 ++ VStr ts :: l2)) :: after))
  = detect_abnormal_posting parse stdev interval_threshold
      outlier_threshold_stddev
      (VDict (before ++ (account, VList (l1 ++ l2)) :: after)).
Proof.
  simpl. f_equal. f_equal. apply for_each_visit_congr.
  intros s. apply visit_suspicious_iff.
  apply (suspicious_drop parse stdev _ _ l1 l2 ts e Hraise Hkind).
Qed.

Lemma unparseable_timestamp_is_dropped_witness :
  detect_abnormal_posting parse_clock stdev_floor 30 2
    (VDict ([] ++ (VStr "fast",
                   VList ([VStr "11:59:50"] ++ VStr "noon"
                          :: [VStr "11:59:55"]))
            :: []))
  = detect_abnormal_posting parse_clock stdev_floor 30 2
      (VDict ([] ++ (VStr "fast",
                     VList ([VStr "11:59:50"] ++ [VStr "11:59:55"]))
              :: [])).
Proof.
  apply (unparseable_timestamp_is_dropped parse_clock stdev_floor 30 2 [] []
           (VStr "fast") [VStr "11:59:50"] [VStr "11:59:55"] "noon"
           ValueError).
  - reflexivity.
  - reflexivity.
Defined.

(** *** Thresholds and gaps *)

Lemma len_cons {A : Type} (x : A) (l : list A) : (len (x :: l) == len l + 1)%Q.
Proof.
  unfold len. cbn [List.length]. rewrite Nat2Z.inj_succ, <- Z.add_1_r.
  rewrite inject_Z_plus. reflexivity.
Qed.

Lemma len_nonneg {A : Type} (l : list A) : (0 <= len l)%Q.
Proof.
  unfold len. change 0%Q with (inject_Z 0). rewrite <- Zle_Qle. lia.
Qed.

Lemma len_pos {A : Type} (l : list A) : l <> [] -> (0 < len l)%Q.
Proof.
  destruct l as [|x l]; [contradiction|]. intros _.
  rewrite len_cons. pose proof (len_nonneg l). lra.
Qed.

Lemma sum_lower_bound (t : Q) (l : list Q) :
  (forall g, In g l -> (t <= g)%Q) ->
  (len l * t <= fold_right Qplus 0 l)%Q.
Proof.
  induction l as [|x l IH]; intros H.
  - unfold len, inject_Z. simpl. lra.
  - rewrite len_cons. cbn [fold_right].
    assert (Hx : (t <= x)%Q) by (apply H; left; reflexivity).
    assert (Hl : (len l * t <= fold_right Qplus 0 l)%Q)
      by (apply IH; intros g Hg; apply H; right; exact Hg).
    lra.
Qed.

Lemma mean_lower_bound (t : Q) (l : list Q) :
  l <> [] -> (forall g, In g l -> (t <= g)%Q) -> (t <= arithmetic_mean l)%Q.
Proof.
  intros Hne H. unfold arithmetic_mean.
  apply Qle_shift_div_l; [apply len_pos, Hne|].
  rewrite Qmult_comm. apply sum_lower_bound, H.
Qed.

Lemma total_seconds_nonneg (d : Z) : (0 <= d)%Z -> (0 <= total_seconds d)%Q.
Proof.
  intros H. unfold total_seconds, seconds. apply double_nonneg.
  apply Qle_shift_div_l; [reflexivity|].
  rewrite Qmult_0_l. change 0%Q with (inject_Z 0). rewrite <- Zle_Qle. exact H.
Qed.

Lemma gaps_nonneg (l : list datetime) (g : Q) :
  ascending l -> In g (gaps l) -> (0 <= g)%Q.
Proof.
  rewrite <- intervals_of_gaps. unfold ascending.
  induction 1 as [|a l Hl IH Ha]; [intros []|].
  destruct l as [|b r]; [intros []|].
  change (intervals_of (a :: b :: r))
    with (total_seconds (micros b - micros a) :: intervals_of (b :: r)).
  intros [<-|Hg]; [|auto].
  apply total_seconds_nonneg. rewrite Forall_forall in Ha.
  specialize (Ha b (or_introl eq_refl)). lia.
Qed.

(** Rounded sums and means of numbers that are not negative are not
    negative. *)
Lemma float_sum_nonneg (l : list Q) :
  (forall g, In g l -> (0 <= g)%Q) -> (0 <= float_sum l)%Q.
Proof.
  unfold float_sum.
  assert (H : forall acc, (0 <= acc)%Q ->
                (forall g, In g l -> (0 <= g)%Q) ->
                (0 <= fold_left float_add l acc)%Q).
  { induction l as [|x l IH]; intros acc Hacc Hl; [exact Hacc|].
    cbn [fold_left]. apply IH.
    - unfold float_add. apply double_nonneg.
      assert (0 <= double x)%Q
        by (apply double_nonneg, Hl; left; reflexivity).
      pose proof (double_nonneg acc Hacc). lra.
    - intros g Hg. apply Hl. right. exact Hg. }
  apply H. apply Qle_refl.
Qed.

Lemma mean_gap_nonneg (l : list Q) :
  (forall g, In g l -> (0 <= g)%Q) -> (0 <= mean_gap l)%Q.
Proof.
  intros H. unfold mean_gap, float_div. apply double_nonneg.
  pose proof (double_nonneg _ (float_sum_nonneg l H)) as Hs.
  pose proof (double_nonneg _ (len_nonneg l)) as Hl.
  unfold Qdiv. apply Qmult_le_0_compat; [exact Hs|].
  apply Qinv_le_0_compat. exact Hl.
Qed.

Section thresholds.
Variable parse : str -> result datetime.
Variable stdev : list Q -> result Q.
Variable outlier_threshold_stddev : Q.

Lemma nonpositive_not_suspicious (interval_threshold : Q) (v : value) :
  (interval_threshold <= 0)%Q ->
  ~ suspicious parse stdev interval_threshold outlier_threshold_stddev v.
Proof.
  intros Ht (strs & ins & E & _ & _ & Hp & Hs & Hlen & Hr).
  destruct Hr as [HA|(_ & sd & _ & g & Hg & Hlt & _)].
  - unfold rule_A in HA.
    assert (0 <= mean_gap (gaps ins))%Q
      by (apply mean_gap_nonneg; intros g Hg; exact (gaps_nonneg ins g Hs Hg)).
    lra.
  - pose proof (gaps_nonneg ins g Hs Hg). lra.
Qed.

End thresholds.

(** X8. With an [interval_threshold] that is zero or negative no account is
    flagged: gaps of instants in ascending order are never negative. *)
Theorem nonpositive_threshold_flags_nothing
  (parse : str -> result datetime) (stdev : list Q -> result Q)
  (interval_threshold outlier_threshold_stddev : Q)
  (items : list (value * value))
  (Hthreshold : (interval_threshold <= 0)%Q) :
  detect_abnormal_posting parse stdev interval_threshold
    outlier_threshold_stddev (VDict items) = Ok [].
Proof.
  destruct (detect_abnormal_posting_members parse stdev interval_threshold
              outlier_threshold_stddev items) as (out & Hout & Hin).
  rewrite Hout. f_equal. destruct out as [|x out]; [reflexivity|].
  exfalso. destruct (proj1 (Hin x) (or_introl eq_refl)) as (v & _ & Hs).
  exact (nonpositive_not_suspicious parse stdev _ _ v Hthreshold Hs).
Qed.

Lemma nonpositive_threshold_flags_nothing_witness :
  detect_abnormal_posting parse_clock stdev_floor 0 2
    (VDict [(VStr "twice", VList [VStr "12:00:00"; VStr "12:00:00"])])
  = Ok [].
Proof.
  apply (nonpositive_threshold_flags_nothing parse_clock stdev_floor 0 2).
  vm_compute. discriminate.
Defined.



(** *** A failing [statistics.stdev] *)

Lemma parse_timestamps_nonempty (parse : str -> result datetime)
  (timestamps : list value) (ps : list datetime) :
  parse_timestamps parse timestamps [] = Ok ps -> ps <> [] ->
  truthy (VList timestamps) = true.
Proof.
  destruct timestamps; [|reflexivity]. simpl. intros E H. congruence.
Qed.

Lemma intervals_of_length (ps ts : list datetime) :
  sorted ps = Ok ts ->
  List.length (intervals_of ts) = pred (List.length ps).
Proof.
  intros H. apply sorted_Ok in H. destruct H as (_ & Hp & _).
  rewrite intervals_of_gaps, gaps_length.
  rewrite (Permutation_length Hp). reflexivity.
Qed.

(** X10. When [statistics.stdev] raises for an account with at least two
    gaps, the exception leaves the [try] body after the cadence rule has
    run: the handler swallows it and the account stays flagged if its mean
    gap is below [interval_threshold]. *)
Theorem stdev_failure_keeps_cadence_flag
  (parse : str -> result datetime) (stdev : list Q -> result Q)
  (interval_threshold outlier_threshold_stddev : Q)
  (account : value) (timestamps : list value) (ps ts : list datetime)
  (e : exn) (s : list value)
  (Hstrings : check_strings timestamps = Ok tt)
  (Hparsed : parse_timestamps parse timestamps [] = Ok ps)
  (Hmany : 3 <= List.length ps)
  (Hsorted : sorted ps = Ok ts)
  (Hfail : stdev (intervals_of ts) = Raise e) :
  let intervals := intervals_of ts in
  let flagged :=
    if Qltb (float_div (float_sum intervals) (len intervals))
         interval_threshold
    then add_once account s else s in
  try_body parse stdev interval_threshold outlier_threshold_stddev
    account (VList timestamps) s = (Raise e, flagged)
  /\ visit parse stdev interval_threshold outlier_threshold_stddev
       (account, VList timestamps) s = (Ok tt, flagged).
Proof.
  intros intervals flagged.
  assert (Hbody : try_body parse stdev interval_threshold
                    outlier_threshold_stddev account (VList timestamps) s
                  = (Raise e, flagged)).
  { unfold try_body, bind, lift. rewrite Hstrings, Hparsed.
    assert (El : (List.length ps <? 2)%nat = false)
      by (apply Nat.ltb_ge; lia).
    rewrite El, Hsorted. fold intervals.
    pose proof (intervals_of_length ps ts Hsorted) as Hlen.
    fold intervals in Hlen.
    unfold flagged. revert Hfail. fold intervals.
    destruct intervals as [|i0 [|i1 r]]; simpl in Hlen; try lia.
    intros Hfail. unfold apply_rules, bind, lift.
    cbn [List.length Nat.ltb Nat.leb]. rewrite Hfail.
    unfold flag, add_once, ret. destruct (Qltb _ interval_threshold);
      reflexivity. }
  split; [exact Hbody|].
  unfold visit.
  rewrite (parse_timestamps_nonempty parse timestamps ps Hparsed).
  - cbn [negb]. unfold try_except. rewrite Hbody. reflexivity.
  - intros ->. simpl in Hmany. lia.
Qed.

Lemma stdev_failure_keeps_cadence_flag_witness :
  let intervals :=
    intervals_of
      [{| micros := 43190000000; aware := false |};
       {| micros := 43195000000; aware := false |};
       {| micros := 43202000000; aware := false |}] in
  let flagged :=
    if Qltb (float_div (float_sum intervals) (len intervals)) 30
    then add_once (VStr "bot2") [] else [] in
  try_body parse_clock (fun _ => Raise OtherError) 30 2 (VStr "bot2")
    (VList [VStr "11:59:55"; VStr "11:59:50"; VStr "12:00:02"]) []
  = (Raise OtherError, flagged)
  /\ visit parse_clock (fun _ => Raise OtherError) 30 2
       (VStr "bot2",
        VList [VStr "11:59:55"; VStr "11:59:50"; VStr "12:00:02"]) []
     = (Ok tt, flagged).
Proof.
  apply (stdev_failure_keeps_cadence_flag parse_clock
           (fun _ => Raise OtherError) 30 2 (VStr "bot2")
           [VStr "11:59:55"; VStr "11:59:50"; VStr "12:00:02"]
           [{| micros := 43195000000; aware := false |};
            {| micros := 43190000000; aware := false |};
            {| micros := 43202000000; aware := false |}]
           [{| micros := 43190000000; aware := false |};
            {| micros := 43195000000; aware := false |};
            {| micros := 43202000000; aware := false |}]
           OtherError []).
  - reflexivity.
  - vm_compute. reflexivity.
  - simpl. lia.
  - vm_compute. reflexivity.
  - reflexivity.
Defined.

(** ** [detect_repeated_phrases]: order and corpus *)

Lemma absent_false (K : list str) (k : str) :
  In k K -> absent K k = false.
Proof.
  intros H. unfold absent. destruct (in_dec str_dec k K);
    [reflexivity | contradiction].
Qed.

Lemma absent_true (K : list str) (k : str) :
  ~ In k K -> absent K k = true.
Proof.
  intros H. unfold absent. destruct (in_dec str_dec k K);
    [contradiction | reflexivity].
Qed.

Lemma filter_remove_absent (K : list str) (k : str) (l : list str) :
  In k K -> filter (absent K) (remove str_dec k l) = filter (absent K) l.
Proof.
  intros Hk. induction l as [|x l IH]; simpl; [reflexivity|].
  destruct (str_dec k x) as [<-|Hne].
  - rewrite IH, (absent_false K k Hk). reflexivity.
  - simpl. rewrite IH. reflexivity.
Qed.

Lemma filter_absent_snoc (K : list str) (k : str) (l : list str) :
  filter (absent (K ++ [k])) l = filter (absent K) (remove str_dec k l).
Proof.
  induction l as [|x l IH]; simpl; [reflexivity|].
  destruct (str_dec k x) as [<-|Hne].
  - rewrite <- IH, absent_false; [reflexivity|].
    apply in_app_iff. right. left. reflexivity.
  - simpl. rewrite <- IH.
    destruct (in_dec str_dec x K) as [H|H].
    + rewrite !absent_false; auto. apply in_app_iff. auto.
    + rewrite !absent_true; auto.
      intros H'. apply in_app_iff in H'. destruct H' as [H'|[H'|[]]]; auto.
Qed.

Lemma increment_keys_order (key : str) (d : list (str * Z)) :
  map fst (increment key d)
  = if in_dec str_dec key (map fst d) then map fst d
    else map fst d ++ [key].
Proof.
  induction d as [|[k0 n] d IH]; simpl.
  - reflexivity.
  - destruct (str_eqb_spec k0 key) as [->|Hne]; simpl.
    + destruct (str_dec key key); [reflexivity | contradiction].
    + rewrite IH. destruct (str_dec k0 key); [contradiction|].
      destruct (in_dec str_dec key (map fst d)); reflexivity.
Qed.

Lemma count_phrases_keys (cleaning : char -> bool) (posts : list value)
  (d : list (str * Z)) :
  map fst (count_phrases cleaning posts d)
  = map fst d
    ++ filter (absent (map fst d)) (first_occurrences (keys_of cleaning posts)).
Proof.
  revert d. induction posts as [|post rest IH]; intros d.
  - simpl. rewrite app_nil_r. reflexivity.
  - destruct post as [| |p| |]; try exact (IH d).
    cbn [count_phrases]. rewrite IH, increment_keys_order.
    unfold keys_of. cbn [string_entries flat_map app map first_occurrences].
    fold (string_entries rest). fold (keys_of cleaning rest).
    rewrite <- cleaned_normalized_key.
    set (k := cleaned cleaning p). cbn [filter].
    destruct (in_dec str_dec k (map fst d)) as [Hin|Hout].
    + rewrite (absent_false _ _ Hin), filter_remove_absent by exact Hin.
      reflexivity.
    + rewrite (absent_true _ _ Hout), <- app_assoc. cbn [app].
      rewrite filter_absent_snoc. reflexivity.
Qed.

Lemma filter_absent_nil (l : list str) : filter (absent []) l = l.
Proof.
  induction l as [|x l IH]; simpl; [reflexivity|]. rewrite IH. reflexivity.
Qed.

Lemma filter_items_keys (thr : Z) (d : list (str * Z)) :
  NoDup (map fst d) ->
  map fst (filter (fun item => (thr <? snd item)%Z) d)
  = filter (fun k => (thr <? lookup k d)%Z) (map fst d).
Proof.
  induction d as [|[k n] d IH]; intros Hnd; [reflexivity|].
  inversion Hnd as [|? ? Hk Hd]; subst.
  cbn [filter map fst snd].
  assert (Ehead : lookup k ((k, n) :: d) = n)
    by (simpl; rewrite str_eqb_refl; reflexivity).
  assert (E : filter (fun k0 => (thr <? lookup k0 ((k, n) :: d))%Z) (map fst d)
              = filter (fun k0 => (thr <? lookup k0 d)%Z) (map fst d)).
  { apply filter_ext_in. intros x Hx. cbn [lookup].
    destruct (str_eqb_spec k x) as [->|Hne]; [contradiction|reflexivity]. }
  rewrite Ehead, E, <- (IH Hd). destruct (thr <? n)%Z; reflexivity.
Qed.

(** X13. [detect_repeated_phrases] lists the repeated keys in the order in
    which they first occur in the corpus: its output is the list of the
    distinct normalized keys of the string entries, in the order of first
    occurrence, restricted to those whose frequency exceeds
    [repetition_threshold]. *)
Theorem detect_repeated_phrases_first_occurrence_order
  (repetition_threshold : Z) (cleaning : char -> bool) (posts : list value) :
  detect_repeated_phrases repetition_threshold cleaning (VList posts)
  = Ok (filter
          (fun key =>
             (repetition_threshold <? frequency cleaning key posts)%Z)
          (first_occurrences (keys_of cleaning posts))).
Proof.
  unfold detect_repeated_phrases. f_equal.
  destruct (count_phrases_inv cleaning posts []) as (Hnd & _ & Hl);
    [constructor | constructor |].
  rewrite (filter_items_keys _ _ Hnd), count_phrases_keys.
  cbn [map app]. rewrite filter_absent_nil.
  apply filter_ext. intros k. rewrite Hl. reflexivity.
Qed.

Lemma frequency_Permutation (cleaning : char -> bool) (key : str)
  (posts posts' : list value) :
  Permutation posts posts' ->
  frequency cleaning key posts = frequency cleaning key posts'.
Proof.
  intros Hp. unfold frequency. f_equal.
  apply Permutation_count_occ. apply Permutation_map.
  unfold string_entries. apply Permutation_flat_map. exact Hp.
Qed.

Lemma frequency_app (cleaning : char -> bool) (key : str)
  (p1 p2 : list value) :
  frequency cleaning key (p1 ++ p2)
  = (frequency cleaning key p1 + frequency cleaning key p2)%Z.
Proof.
  unfold frequency, string_entries.
  rewrite flat_map_app, map_app, count_occ_app. lia.
Qed.

(** X14. The order of the posts in the corpus does not change which phrases
    are reported: for a permuted corpus the output is a permutation of the
    output. *)
Theorem detect_repeated_phrases_corpus_order
  (repetition_threshold : Z) (cleaning : char -> bool)
  (posts posts' : list value)
  (Hperm : Permutation posts posts') :
  exists out out',
    detect_repeated_phrases repetition_threshold cleaning (VList posts)
    = Ok out
    /\ detect_repeated_phrases repetition_threshold cleaning (VList posts')
       = Ok out'
    /\ Permutation out out'.
Proof.
  eexists. eexists. split; [reflexivity|]. split; [reflexivity|].
  apply NoDup_Permutation; try apply detect_repeated_phrases_NoDup.
  intros k. rewrite !detect_repeated_phrases_In.
  rewrite (frequency_Permutation cleaning k posts posts' Hperm). reflexivity.
Qed.

Lemma detect_repeated_phrases_corpus_order_witness :
  exists out out',
    detect_repeated_phrases 1 default_cleaning
      (VList [VStr "spam"; VStr "ham"; VStr "Spam!"; VStr "ham"]) = Ok out
    /\ detect_repeated_phrases 1 default_cleaning
         (VList [VStr "ham"; VStr "spam"; VStr "Spam!"; VStr "ham"]) = Ok out'
    /\ Permutation out out'.
Proof.
  apply (detect_repeated_phrases_corpus_order 1 default_cleaning).
  apply perm_swap.
Defined.

(** X15. Adding posts to a corpus, before or after it, never removes a
    phrase from the output: the frequencies of the two parts add up. *)
Theorem detect_repeated_phrases_corpus_grows
  (repetition_threshold : Z) (cleaning : char -> bool)
  (posts more : list value) :
  exists out after before,
    detect_repeated_phrases repetition_threshold cleaning (VList posts)
    = Ok out
    /\ detect_repeated_phrases repetition_threshold cleaning
         (VList (posts ++ more)) = Ok after
    /\ detect_repeated_phrases repetition_threshold cleaning
         (VList (more ++ posts)) = Ok before
    /\ incl out after /\ incl out before
    /\ forall key,
        frequency cleaning key (posts ++ more)
        = (frequency cleaning key posts + frequency cleaning key more)%Z.
Proof.
  eexists. eexists. eexists.
  split; [reflexivity|]. split; [reflexivity|]. split; [reflexivity|].
  split; [|split].
  - intros k. rewrite !detect_repeated_phrases_In, frequency_app.
    pose proof (frequency_nonneg cleaning k more). lia.
  - intros k. rewrite !detect_repeated_phrases_In, frequency_app.
    pose proof (frequency_nonneg cleaning k more). lia.
  - intros key. apply frequency_app.
Qed.

(** ** [sentiment_analysis]: range and ignored entries *)

Lemma sum_upper_bound (t : Q) (l : list Q) :
  (forall g, In g l -> (g <= t)%Q) ->
  (fold_right Qplus 0 l <= len l * t)%Q.
Proof.
  induction l as [|x l IH]; intros H.
  - unfold len, inject_Z. simpl. lra.
  - rewrite len_cons. cbn [fold_right].
    assert (Hx : (x <= t)%Q) by (apply H; left; reflexivity).
    assert (Hl : (fold_right Qplus 0 l <= len l * t)%Q)
      by (apply IH; intros g Hg; apply H; right; exact Hg).
    lra.
Qed.

Lemma mean_upper_bound (t : Q) (l : list Q) :
  l <> [] -> (forall g, In g l -> (g <= t)%Q) -> (arithmetic_mean l <= t)%Q.
Proof.
  intros Hne H. unfold arithmetic_mean.
  apply Qle_shift_div_r; [apply len_pos, Hne|].
  rewrite Qmult_comm. apply sum_upper_bound, H.
Qed.

Lemma scores_In (polarity : str -> result Q) (posts : list value) (p : Q) :
  In p (scores polarity posts) ->
  exists post, In (VStr post) posts /\ polarity post = Ok p.
Proof.
  unfold scores. rewrite in_flat_map. intros (v & Hv & Hp).
  destruct v; try contradiction.
  destruct (polarity s) eqn:E; [|contradiction].
  destruct Hp as [<-|[]]. exists s. auto.
Qed.

(** X17. When the polarity collaborator keeps to its range, scores between
    -1 and 1, the result of [sentiment_analysis] lies between -1 and 1 on
    every input. *)
Theorem sentiment_analysis_in_range
  (polarity : str -> result Q) (posts : value)
  (Hrange : forall post p, polarity post = Ok p -> (- (1) <= p <= 1)%Q) :
  exists r,
    sentiment_analysis polarity posts = Ok r /\ (- (1) <= r <= 1)%Q.
Proof.
  assert (Hzero : (- (1) <= 0 <= 1)%Q) by (split; discriminate).
  destruct posts as [| | |posts|];
    try (exists 0%Q; split; [reflexivity | exact Hzero]).
  destruct (sentiment_analysis_scores polarity posts) as (r & Hr & Hmean & Hz).
  exists r. split; [exact Hr|].
  destruct (scores polarity posts) as [|p l] eqn:E.
  - rewrite (Hz eq_refl). exact Hzero.
  - assert (Hne : p :: l <> []) by discriminate.
    rewrite (Hmean Hne). rewrite <- E in *. clear E. split.
    + apply mean_lower_bound; [exact Hne|]. intros g Hg.
      apply scores_In in Hg. destruct Hg as (post & _ & Hp).
      apply (Hrange post g Hp).
    + apply mean_upper_bound; [exact Hne|]. intros g Hg.
      apply scores_In in Hg. destruct Hg as (post & _ & Hp).
      apply (Hrange post g Hp).
Qed.

Lemma sentiment_analysis_in_range_witness :
  exists r,
    sentiment_analysis
      (fun post => if (post =? "")%str then Raise ValueError
                   else Ok (1 # 2)%Q)
      (VList [VStr "fine"; VStr ""; VInt 1]) = Ok r
    /\ (- (1) <= r <= 1)%Q.
Proof.
  apply (sentiment_analysis_in_range _).
  intros post p. destruct (post =? "")%str; intros H; [discriminate H|].
  injection H as <-. split; discriminate.
Defined.

Lemma scores_app (polarity : str -> result Q) (l1 l2 : list value) :
  scores polarity (l1 ++ l2) = scores polarity l1 ++ scores polarity l2.
Proof. unfold scores. apply flat_map_app. Qed.

Lemma sentiment_analysis_of_scores (polarity : str -> result Q)
  (posts posts' : list value) :
  scores polarity posts = scores polarity posts' ->
  sentiment_analysis polarity (VList posts)
  = sentiment_analysis polarity (VList posts').
Proof.
  intros E.
  assert (H : forall l,
             sentiment_analysis polarity (VList l)
             = match scores polarity l with
               | [] => Ok 0%Q
               | sentiments => Ok (sum sentiments / len sentiments)%Q
               end).
  { intros [|x l]; [reflexivity|].
    unfold sentiment_analysis. rewrite score_posts_scores. reflexivity. }
  rewrite !H, E. reflexivity.
Qed.

(** X18. An entry that is not a string, or a post whose scoring raises,
    does not count: the result is the same as for the corpus without that
    entry. *)
Theorem unscored_entry_is_ignored
  (polarity : str -> result Q) (before after : list value) (entry : value)
  (Hunscored : unscored polarity entry) :
  sentiment_analysis polarity (VList (before ++ entry :: after))
  = sentiment_analysis polarity (VList (before ++ after)).
Proof.
  apply sentiment_analysis_of_scores. rewrite !scores_app.
  f_equal. change (entry :: after) with ([entry] ++ after).
  rewrite scores_app. rewrite (scores_unscored polarity [entry]); [reflexivity|].
  constructor; [exact Hunscored | constructor].
Qed.

Lemma unscored_entry_is_ignored_witness :
  sentiment_analysis
    (fun post => if (post =? "")%str then Raise ValueError
                 else Ok (1 # 2)%Q)
    (VList ([VStr "fine"] ++ VStr "" :: [VStr "good"]))
  = sentiment_analysis
      (fun post => if (post =? "")%str then Raise ValueError
                   else Ok (1 # 2)%Q)
      (VList ([VStr "fine"] ++ [VStr "good"])).
Proof.
  apply (unscored_entry_is_ignored _ [VStr "fine"] [VStr "good"] (VStr "")).
  simpl. exists ValueError. reflexivity.
Defined.

(** ** [analyze_network]: ignored entries, failing edges, clusters *)

Section any_graph_api.
Variable nx : networkx.

Lemma add_friends_valid (account : str) (friends : list value)
  (G : graph nx) :
  add_friends nx account (map VStr (string_entries friends)) G
  = add_friends nx account friends G.
Proof.
  revert G. induction friends as [|friend rest IH]; intros G; [reflexivity|].
  destruct friend; simpl; auto.
  destruct (add_edge nx G account s); apply IH.
Qed.

Lemma add_accounts_valid (items : list (value * value)) (G : graph nx) :
  add_accounts nx (valid_items items) G = add_accounts nx items G.
Proof.
  revert G. induction items as [|[account friends] items IH]; intros G;
    [reflexivity|].
  destruct friends; try (destruct account; exact (IH G)).
  destruct account; try exact (IH G).
  simpl. rewrite add_friends_valid. apply IH.
Qed.

Lemma add_friends_all_fail (account : str) (friends : list value)
  (G : graph nx) :
  (forall G u v, exists e, add_edge nx G u v = Raise e) ->
  add_friends nx account friends G = G.
Proof.
  intros H. induction friends as [|friend rest IH]; [reflexivity|].
  destruct friend; simpl; auto.
  destruct (H G account s) as [e ->]. exact IH.
Qed.

Lemma add_accounts_all_fail (items : list (value * value)) (G : graph nx) :
  (forall G u v, exists e, add_edge nx G u v = Raise e) ->
  add_accounts nx items G = G.
Proof.
  intros H. induction items as [|[account friends] items IH]; [reflexivity|].
  destruct friends; try (destruct account; exact IH).
  destruct account; try exact IH.
  simpl. rewrite add_friends_all_fail by exact H. exact IH.
Qed.
End any_graph_api.

(** X20. Whatever the graph API does, [analyze_network] uses only the items
    whose key is a string and whose value is a list, and of each list only the
    strings: every other item or friend is skipped and the result is the
    one for the dictionary without them. *)
Theorem analyze_network_uses_valid_items
  (nx : networkx) (cluster_threshold : Z) (items : list (value * value)) :
  analyze_network nx cluster_threshold (VDict items)
  = analyze_network nx cluster_threshold (VDict (valid_items items)).
Proof.
  simpl. destruct (Graph nx tt) as [G|e]; [|reflexivity].
  rewrite add_accounts_valid. reflexivity.
Qed.

(** X21. An exception raised by [add_edge] is swallowed and the edge left
    out: with a graph API whose [add_edge] raises on every call the result is
    the one for the empty dictionary. *)
Theorem failing_add_edge_is_swallowed
  (nx : networkx) (cluster_threshold : Z) (items : list (value * value))
  (Hfail : forall G u v, exists e, add_edge nx G u v = Raise e) :
  analyze_network nx cluster_threshold (VDict items)
  = analyze_network nx cluster_threshold (VDict []).
Proof.
  simpl. destruct (Graph nx tt) as [G|e]; [|reflexivity].
  rewrite (add_accounts_all_fail nx items G Hfail). reflexivity.
Qed.

Lemma failing_add_edge_is_swallowed_witness :
  analyze_network failing_add_edge_nx 0
    (VDict [(VStr "a", VList [VStr "b"])])
  = analyze_network failing_add_edge_nx 0 (VDict []).
Proof.
  apply (failing_add_edge_is_swallowed failing_add_edge_nx 0).
  intros G u v. exists OtherError. reflexivity.
Defined.

(** *** Clusters over a conforming graph API *)

Lemma node_named (items : list (value * value)) (x : str) :
  node (valid_edges items) x <-> named items x.
Proof.
  unfold node, linked, named. split.
  - intros (y & [H|H]); apply valid_edges_In in H;
      destruct H as (friends & Hi & Hf).
    + exists x, friends, y. auto.
    + exists y, friends, x. auto.
  - intros (account & friends & friend & Hi & Hf & [->| ->]).
    + exists friend. left. apply valid_edges_In. eauto.
    + exists account. right. apply valid_edges_In. eauto.
Qed.

Lemma component_nodes (E : list (str * str)) (c : list str)
  (x : str) :
  component E c -> In x c -> node E x.
Proof.
  intros (x0 & Hx0 & Hin) Hx. apply Hin in Hx.
  destruct (connected_node E x0 x Hx) as [<-|[_ H]]; assumption.
Qed.

Lemma analyze_network_clusters
  (nx : networkx) (cluster_threshold : Z) (items : list (value * value)) :
  conforms nx ->
  exists out,
    analyze_network nx cluster_threshold (VDict items) = Ok out
    /\ (forall c, In c out ->
                  NoDup c
                  /\ component (valid_edges items) c
                  /\ (cluster_threshold < Z.of_nat (List.length c))%Z)
    /\ (forall c c' x, In c out -> In c' out -> In x c -> In x c' -> c = c').
Proof.
  intros Hnx.
  destruct (analyze_network_conforming nx cluster_threshold items Hnx)
    as (out & Hout & _ & Hnd & Hshare & Hiff).
  exists out. split; [exact Hout|]. split; [|exact Hshare].
  intros c Hc. split; [apply Hnd, Hc|].
  apply (Hiff c (Hnd c Hc)). exists c. split; [exact Hc | reflexivity].
Qed.

(** X22. With a graph API that conforms to the contract of [networkx], the
    clusters that [analyze_network] returns are distinct and disjoint: no
    cluster is listed twice, none repeats an identifier, two clusters that
    share an identifier are the same, and each identifier in a cluster is
    named by a valid pair of the dictionary, as a string key with a list
    value or as a string friend in such a list. *)
Theorem clusters_are_disjoint_sets_of_named_nodes
  (nx : networkx) (cluster_threshold : Z) (items : list (value * value))
  (Hnx : conforms nx) :
  exists out,
    analyze_network nx cluster_threshold (VDict items) = Ok out
    /\ NoDup out
    /\ (forall c, In c out ->
                  NoDup c /\ forall x, In x c -> named items x)
    /\ (forall c c' x, In c out -> In c' out -> In x c -> In x c' -> c = c').
Proof.
  destruct (analyze_network_conforming nx cluster_threshold items Hnx)
    as (out & Hout & Hdistinct & Hnd & Hshare & Hiff).
  exists out. split; [exact Hout|]. split; [exact Hdistinct|].
  split; [|exact Hshare].
  intros c Hin. split; [exact (Hnd c Hin)|]. intros x Hx.
  assert (Hcomp : component (valid_edges items) c).
  { apply (proj1 (Hiff c (Hnd c Hin))). exists c.
    split; [exact Hin | reflexivity]. }
  apply node_named. apply (component_nodes _ c x Hcomp Hx).
Qed.

Lemma clusters_are_disjoint_sets_of_named_nodes_witness :
  exists out,
    analyze_network edge_list_nx 1
      (VDict [(VStr "a", VList [VStr "b"; VInt 3]); (VInt 7, VList [VStr "z"])])
    = Ok out
    /\ NoDup out
    /\ (forall c, In c out ->
                  NoDup c
                  /\ forall x, In x c ->
                       named
                         [(VStr "a", VList [VStr "b"; VInt 3]);
                          (VInt 7, VList [VStr "z"])] x)
    /\ (forall c c' x, In c out -> In c' out -> In x c -> In x c' -> c = c').
Proof.
  apply (clusters_are_disjoint_sets_of_named_nodes edge_list_nx 1).
  apply edge_list_nx_conforms.
Defined.

(** X23. With a conforming graph API an account that lists no string friend
    and that no account lists is in no cluster, whatever the threshold, even
    a negative one: the graph only has the ends of the edges. *)
Theorem isolated_account_is_never_reported
  (nx : networkx) (cluster_threshold : Z) (items : list (value * value))
  (account : str)
  (Hnx : conforms nx)
  (Hlists : forall friends friend,
      In (VStr account, VList friends) items -> ~ In (VStr friend) friends)
  (Hlisted : forall other friends,
      In (VStr other, VList friends) items -> ~ In (VStr account) friends) :
  exists out,
    analyze_network nx cluster_threshold (VDict items) = Ok out
    /\ forall c, In c out -> ~ In account c.
Proof.
  destruct (analyze_network_clusters nx cluster_threshold items Hnx)
    as (out & Hout & Hc & _).
  exists out. split; [exact Hout|].
  intros c Hin Hacc. destruct (Hc c Hin) as (_ & Hcomp & _).
  apply (component_nodes _ c account Hcomp) in Hacc.
  apply node_named in Hacc.
  destruct Hacc as (a & friends & friend & Hi & Hf & [->| ->]).
  - exact (Hlists friends friend Hi Hf).
  - exact (Hlisted a friends Hi Hf).
Qed.

Lemma isolated_account_is_never_reported_witness :
  exists out,
    analyze_network edge_list_nx (-1)
      (VDict [(VStr "loner", VList [VInt 1]); (VStr "a", VList [VStr "b"])])
    = Ok out
    /\ forall c, In c out -> ~ In "loner"%str c.
Proof.
  apply (isolated_account_is_never_reported edge_list_nx (-1)
           [(VStr "loner", VList [VInt 1]); (VStr "a", VList [VStr "b"])]
           "loner").
  - apply edge_list_nx_conforms.
  - intros friends friend [H|[H|[]]] Hf.
    + injection H as <-. destruct Hf as [Hf|[]]. discriminate Hf.
    + discriminate H.
  - intros other friends [H|[H|[]]] Hf.
    + injection H as _ <-. destruct Hf as [Hf|[]]. discriminate Hf.
    + injection H as _ <-. destruct Hf as [Hf|[]]. discriminate Hf.
Defined.

Lemma connected_ext (E E' : list (str * str)) (x y : str) :
  (forall u v, linked E u v -> linked E' u v) ->
  connected E x y -> connected E' x y.
Proof.
  intros H. induction 1 as [x|x w y Hl Hc IH]; [constructor|].
  apply (connected_step E' x w y); auto.
Qed.

Lemma component_ext (E E' : list (str * str)) (c : list str) :
  (forall u v, linked E u v <-> linked E' u v) ->
  component E c -> component E' c.
Proof.
  intros H (x & [y Hy] & Hin). exists x. split.
  - exists y. apply H, Hy.
  - intros z. rewrite Hin. split; apply connected_ext; intros u v; apply H.
Qed.

(** X24. With a conforming graph API the clusters depend only on which
    pairs are joined: two dictionaries whose valid pairs join the same
    identifiers, in whatever order, direction or number of repetitions,
    yield the same clusters, as sets. *)
Theorem clusters_depend_on_joined_pairs
  (nx : networkx) (cluster_threshold : Z) (items items' : list (value * value))
  (Hnx : conforms nx)
  (Hsame : forall x y,
      linked (valid_edges items) x y <-> linked (valid_edges items') x y) :
  exists out out',
    analyze_network nx cluster_threshold (VDict items) = Ok out
    /\ analyze_network nx cluster_threshold (VDict items') = Ok out'
    /\ (forall c, In c out -> exists c', In c' out' /\ Permutation c' c)
    /\ (forall c', In c' out' -> exists c, In c out /\ Permutation c c').
Proof.
  destruct (analyze_network_conforming nx cluster_threshold items Hnx)
    as (out & Hout & _ & Hnd & _ & Hiff).
  destruct (analyze_network_conforming nx cluster_threshold items' Hnx)
    as (out' & Hout' & _ & Hnd' & _ & Hiff').
  exists out, out'. split; [exact Hout|]. split; [exact Hout'|]. split.
  - intros c Hc. apply (Hiff' c (Hnd c Hc)).
    assert (H : component (valid_edges items) c
                /\ (cluster_threshold < Z.of_nat (List.length c))%Z).
    { apply (Hiff c (Hnd c Hc)). exists c. split; [exact Hc | reflexivity]. }
    destruct H as [Hcomp Hlen]. split; [|exact Hlen].
    apply (component_ext _ _ c Hsame Hcomp).
  - intros c Hc. apply (Hiff c (Hnd' c Hc)).
    assert (H : component (valid_edges items') c
                /\ (cluster_threshold < Z.of_nat (List.length c))%Z).
    { apply (Hiff' c (Hnd' c Hc)). exists c. split; [exact Hc | reflexivity]. }
    destruct H as [Hcomp Hlen]. split; [|exact Hlen].
    apply (component_ext (valid_edges items') (valid_edges items) c);
      [|exact Hcomp].
    intros u v. symmetry. apply Hsame.
Qed.

Lemma clusters_depend_on_joined_pairs_witness :
  exists out out',
    analyze_network edge_list_nx 1
      (VDict [(VStr "a", VList [VStr "b"; VStr "b"])]) = Ok out
    /\ analyze_network edge_list_nx 1
         (VDict [(VStr "b", VList [VStr "a"])]) = Ok out'
    /\ (forall c, In c out -> exists c', In c' out' /\ Permutation c' c)
    /\ (forall c', In c' out' -> exists c, In c out /\ Permutation c c').
Proof.
  apply (clusters_depend_on_joined_pairs edge_list_nx 1).
  - apply edge_list_nx_conforms.
  - intros x y. unfold linked. simpl. split.
    + intros [[H|[H|[]]]|[H|[H|[]]]]; injection H as <- <-; auto.
    + intros [[H|[]]|[H|[]]]; injection H as <- <-; auto.
Defined.

(** ** Accounts are judged one by one *)

Lemma detect_single (parse : str -> result datetime) (stdev : list Q -> result Q)
  (interval_threshold outlier_threshold_stddev : Q)
  (account timestamps : value) :
  detect_abnormal_posting parse stdev interval_threshold
    outlier_threshold_stddev (VDict [(account, timestamps)]) = Ok [account]
  <-> suspicious parse stdev interval_threshold outlier_threshold_stddev
        timestamps.
Proof.
  destruct (visit_spec parse stdev interval_threshold outlier_threshold_stddev
              account timestamps []) as (b & Hv & Hb).
  unfold detect_abnormal_posting. cbn [for_each]. unfold bind. rewrite Hv.
  unfold ret. cbn [snd]. rewrite <- Hb.
  destruct b; unfold add_once; simpl; split; intros H; try reflexivity;
    discriminate H.
Qed.

(** X12. Whether an account of a dictionary is flagged depends on its own
    timestamps only: it is in the output for the whole dictionary exactly
    when [detect_abnormal_posting] flags it in the dictionary that holds
    nothing else. *)
Theorem accounts_are_judged_independently
  (parse : str -> result datetime) (stdev : list Q -> result Q)
  (interval_threshold outlier_threshold_stddev : Q)
  (items : list (value * value)) (account timestamps : value)
  (Hkeys : NoDup (map fst items))
  (Hitem : In (account, timestamps) items) :
  exists out,
    detect_abnormal_posting parse stdev interval_threshold
      outlier_threshold_stddev (VDict items) = Ok out
    /\ (In account out <->
        detect_abnormal_posting parse stdev interval_threshold
          outlier_threshold_stddev (VDict [(account, timestamps)])
        = Ok [account]).
Proof.
  destruct (detect_abnormal_posting_members parse stdev interval_threshold
              outlier_threshold_stddev items) as (out & Hout & Hin).
  exists out. split; [exact Hout|].
  rewrite detect_single, Hin. split.
  - intros (ts & Hts & Hs).
    assert (ts = timestamps); [|subst; exact Hs].
    clear - Hkeys Hitem Hts. induction items as [|[k v] l IH];
      [contradiction|].
    inversion Hkeys as [|? ? Hk Hl]; subst. simpl in Hk.
    destruct Hts as [E|Hts], Hitem as [E'|Hitem'].
    + congruence.
    + injection E as -> ->. exfalso. apply Hk.
      apply (in_map fst) in Hitem'. exact Hitem'.
    + injection E' as -> ->. exfalso. apply Hk.
      apply (in_map fst) in Hts. exact Hts.
    + apply IH; assumption.
  - intros Hs. exists timestamps. auto.
Qed.

Lemma accounts_are_judged_independently_witness :
  exists out,
    detect_abnormal_posting parse_clock stdev_floor 30 2
      (VDict [(VStr "slow", VList [VStr "10:00:00"; VStr "12:30:00"]);
              (VStr "fast", VList [VStr "11:59:50"; VStr "11:59:55"])])
    = Ok out
    /\ (In (VStr "fast") out <->
        detect_abnormal_posting parse_clock stdev_floor 30 2
          (VDict [(VStr "fast", VList [VStr "11:59:50"; VStr "11:59:55"])])
        = Ok [VStr "fast"]).
Proof.
  apply (accounts_are_judged_independently parse_clock stdev_floor 30 2).
  - simpl. constructor.
    + intros [H|[]]. discriminate H.
    + constructor; [intros [] | constructor].
  - simpl. auto.
Defined.
